(** * Monte-Carlo tree search of Go-AI ([go_ai/mcts.py])

    A shallow embedding of the [Node] and [MCTree] classes and of
    [get_immediate_lookahead], followed by the properties of the search
    that the specification states.

    Conventions of the embedding.
    - Python floats are read as real numbers ([R]); rounding and NaN are
      outside the model.  The one overflow the search can reach, a power
      of a visit count in [get_action_probs], is modelled by its threshold
      ([float_overflow]).  Visit counts are [nat].
    - Nodes live in a heap (a list of records addressed by position); a
      Python object reference is a heap address, so that parent links and
      child slots alias the same node as they do in the source.
    - A call either returns, raises a Python exception, or does not finish
      within the fuel given to its loops and recursions.  A call that
      raises gives the exception (and the evaluator calls made before it),
      not the heap: nothing in the repository catches these exceptions, so
      what a failed call has already written is never read again.
    - The game rules ([GoGame] of gym_go) and the evaluator
      ([forward_func]) are external: they are parameters. *)

From Stdlib Require Import Reals Lra Lia.
From stdpp Require Import base list option sorting.

Open Scope R_scope.

(** ** Outcomes of a call *)

Inductive exn : Set :=
| IndexError       (* an array or tuple index out of range *)
| AttributeError   (* an attribute read on [None] *)
| AssertionError   (* a failed [assert] *)
| ValueError       (* an empty array given to [np.max] or to [normalize],
                      or an infinite entry given to [normalize] *)
| MoveNoneError    (* Exception("MCTS: move shouldn't be None, please debug") *)
| InvalidRef.      (* an address outside the heap; Python references cannot dangle *)

Inductive outcome (A : Type) : Type :=
| Ok (a : A)
| Raise (e : exn)
| Diverge.

Arguments Ok {A} a.
Arguments Raise {A} e.
Arguments Diverge {A}.

Definition obind {A B : Type} (m : outcome A) (f : A -> outcome B) : outcome B :=
  match m with
  | Ok a => f a
  | Raise e => Raise e
  | Diverge => Diverge
  end.

Definition index {A : Type} (l : list A) (i : nat) : outcome A :=
  match l !! i with
  | Some x => Ok x
  | None => Raise IndexError
  end.

Definition py_assert (b : bool) : outcome unit :=
  if b then Ok tt else Raise AssertionError.

#[export] Instance outcome_ret : MRet outcome := @Ok.
#[export] Instance outcome_bind : MBind outcome := fun A B f m => obind m f.

(** ** The game rules

    [GoGame] is the stateless API of gym_go.  A state is a three
    dimensional array (channels, rows, columns); [shape] gives its
    dimensions, the only thing the search reads from the array itself. *)

Class GoGame (State : Type) : Type := {
  get_valid_moves : State -> list bool;
  get_action_size : State -> nat;
  get_next_state : State -> nat -> State;
  get_turn : State -> nat;
  get_canonical_form : State -> nat -> State;
  get_game_ended : State -> bool;
  get_areas : State -> nat * nat;
  get_init_board : nat -> State;
  shape : State -> nat * nat * nat
}.

(** [np.argwhere(valid_moves > 0).flatten()]: the indices of the legal
    moves, in ascending order. *)
Fixpoint argwhere_from (i : nat) (v : list bool) : list nat :=
  match v with
  | [] => []
  | b :: v' => if b then i :: argwhere_from (S i) v' else argwhere_from (S i) v'
  end.

Definition argwhere (v : list bool) : list nat := argwhere_from 0 v.

Section MCTS.

Context {State : Type} {G : GoGame State}.

(** What a call site passes as the [state] of a new node: a game state, or
    the two dimensional slice [s[idx]] of one. *)
Inductive ndarray : Type :=
| Board (s : State)
| Plane (s : State) (idx : nat).

(** [a[idx]] for a game state [a]. *)
Definition slice (s : State) (idx : nat) : outcome ndarray :=
  if decide (idx < fst (fst (shape s)))%nat then Ok (Plane s idx) else Raise IndexError.

(** ** Nodes *)

Record Node : Type := mkNode {
  parent : option nat;
  height : nat;
  children : list (option nat);
  action_probs : list R;
  state : State;
  turn : nat;
  terminal : bool;
  N : nat;
  V : R;
  Q_sum : R
}.

(** The heap: node [i] lives at position [i]. *)
Abbreviation heap := (list Node).

Definition deref (h : heap) (i : nat) : outcome Node :=
  match h !! i with
  | Some n => Ok n
  | None => Raise InvalidRef
  end.

Definition set_children (n : Node) (cs : list (option nat)) : Node :=
  mkNode (parent n) (height n) cs (action_probs n) (state n) (turn n)
         (terminal n) (N n) (V n) (Q_sum n).

Definition set_parent (n : Node) (p : option nat) : Node :=
  mkNode p (height n) (children n) (action_probs n) (state n) (turn n)
         (terminal n) (N n) (V n) (Q_sum n).

(** [self.N += 1; self.Q_sum += value_incre] *)
Definition bump (n : Node) (value_incre : R) : Node :=
  mkNode (parent n) (height n) (children n) (action_probs n) (state n) (turn n)
         (terminal n) (S (N n)) (V n) (Q_sum n + value_incre).

(** [Node.__init__].  The new node gets the next free address.  With a
    [parentaction] it is first written into the parent's slot; the shape of
    [state] is read afterwards, which raises for a slice that has no third
    dimension.  In that case the source has already overwritten the
    parent's slot (line 19) with the object under construction; the result
    here is the exception alone. *)
Definition Node_init (parentaction : option (nat * nat)) (probs : list R)
    (state_value : R) (st : ndarray) (h : heap) : outcome (nat * heap) :=
  let self := length h in
  '(par, hgt, h1) ←
     match parentaction with
     | Some (p, a) =>
         pn ← deref h p;
         if decide (a < length (children pn))%nat
         then Ok (Some p, S (height pn),
                  <[p := set_children pn (<[a := Some self]> (children pn))]> h)
         else Raise IndexError
     | None => Ok (None, 0%nat, h)
     end;
  match st with
  | Plane _ _ => Raise IndexError
  | Board s =>
      let '(_, rows, cols) := shape s in
      _ ← py_assert (rows =? cols)%nat;
      let board_size := rows in
      let node := mkNode par hgt (replicate (board_size ^ 2 + 1) None) probs s
                         (get_turn s) (get_game_ended s) 0 state_value 0 in
      Ok (self, h1 ++ [node])
  end.

(** [Node.visited] *)
Definition visited (n : Node) : bool := (0 <? N n)%nat.

(** [Node.cached_children] *)
Definition cached_children (n : Node) : bool :=
  existsb (fun c => match c with Some _ => true | None => false end) (children n).

(** The visit counts of the real children, in slot order. *)
Fixpoint real_children_N (h : heap) (cs : list (option nat)) : outcome (list nat) :=
  match cs with
  | [] => Ok []
  | None :: cs' => real_children_N h cs'
  | Some c :: cs' =>
      (child ← deref h c;
       rest ← real_children_N h cs';
       Ok (N child :: rest))
  end.

(** [Node.is_leaf] *)
Definition is_leaf (h : heap) (n : Node) : outcome bool :=
  if (N n =? 1)%nat then Ok true
  else (ns ← real_children_N h (children n);
        Ok (sum_list ns <=? 0)%nat).

(** [self.children[move]] followed by an attribute read on the result. *)
Definition child_at (h : heap) (n : Node) (move : nat) : outcome Node :=
  (slot ← index (children n) move;
   match slot with
   | None => Raise AttributeError
   | Some c => deref h c
   end).

(** [Node.avg_Q] *)
Definition avg_Q (h : heap) (n : Node) (move : nat) : outcome R :=
  (child ← child_at h n move;
   let avg := (V child + Q_sum child) / (1 + INR (N n)) in
   Ok (- avg)).

(** [Node.back_propagate].  The recursion follows the parent links; [fuel]
    bounds its depth. *)
Fixpoint back_propagate (fuel : nat) (i : nat) (value_incre : R) (h : heap)
    : outcome heap :=
  match fuel with
  | O => Diverge
  | S fuel' =>
      (n ← deref h i;
       let h1 := <[i := bump n value_incre]> h in
       match parent n with
       | Some p => back_propagate fuel' p (- value_incre) h1
       | None => Ok h1
       end)
  end.

(** ** The evaluator and the calls made to it

    A computation of the tree reads and updates the heap and calls the
    evaluator.  Its result comes with the list of batches the evaluator was
    called on, in call order; this list is kept when the call raises. *)

Variable forward_func : list State -> list (list R) * list R.

Definition M (A : Type) : Type := heap -> list (list State) * outcome (A * heap).

Definition ret_M {A : Type} (a : A) : M A := fun h => ([], Ok (a, h)).

Definition bind_M {A B : Type} (m : M A) (f : A -> M B) : M B := fun h =>
  match m h with
  | (calls, Ok (a, h1)) => let '(calls', r) := f a h1 in (calls ++ calls', r)
  | (calls, Raise e) => (calls, Raise e)
  | (calls, Diverge) => (calls, Diverge)
  end.

#[global] Instance M_ret : MRet M := @ret_M.
#[global] Instance M_bind : MBind M := fun A B f m => bind_M m f.

(** A computation that only reads the heap. *)
Definition pure_M {A : Type} (m : outcome A) : M A := fun h =>
  ([], a ← m; Ok (a, h)).

(** A computation on the heap that does not call the evaluator. *)
Definition heap_M {A : Type} (f : heap -> outcome (A * heap)) : M A := fun h =>
  ([], f h).

Definition get_node (i : nat) : M Node := fun h =>
  ([], n ← deref h i; Ok (n, h)).

Definition call_forward (batch : list State) : M (list (list R) * list R) := fun h =>
  ([batch], Ok (forward_func batch, h)).

(** ** [get_immediate_lookahead] *)

Definition canonical_winning (canonical_state : State) : R :=
  let '(my_area, opp_area) := get_areas canonical_state in
  if (opp_area <? my_area)%nat then 1
  else if (my_area <? opp_area)%nat then -1
  else 0.

Definition canonical_next (st : State) (move : nat) : State :=
  let next_state := get_next_state st move in
  let next_turn := get_turn next_state in
  get_canonical_form next_state next_turn.

(** The first loop: the canonical successors of the legal moves of every
    state of the batch, in order. *)
Definition children_states (st : State) : list State :=
  canonical_next st <$> argwhere (get_valid_moves st).

Definition all_children_states (states : list State) : list State :=
  concat (children_states <$> states).

Definition bool_R (b : bool) : R := if b then 1 else 0.

(** The body of the second loop for one state: [moves] are the moves still
    to scan, [curr_idx] the position reached in the evaluator's outputs. *)
Fixpoint lookahead_moves (valid_moves : list bool) (canonical_next_states : list State)
    (canonical_pis : list (list R)) (canonical_next_vals : list R)
    (moves : list nat) (curr_idx : nat) : outcome (list R * list (list R) * nat) :=
  match moves with
  | [] => Ok ([], [], curr_idx)
  | move :: moves' =>
      valid ← index valid_moves move;
      if valid : bool then
        canonical_next_state ← index canonical_next_states curr_idx;
        let terminal := bool_R (get_game_ended canonical_next_state) in
        let winning := canonical_winning canonical_next_state in
        v ← index canonical_next_vals curr_idx;
        let val := (1 - terminal) * v + terminal * winning in
        p ← index canonical_pis curr_idx;
        '(Qs, children_pis, idx') ←
          lookahead_moves valid_moves canonical_next_states canonical_pis
                          canonical_next_vals moves' (S curr_idx);
        Ok ((- val) :: Qs, p :: children_pis, idx')
      else
        '(Qs, children_pis, idx') ←
          lookahead_moves valid_moves canonical_next_states canonical_pis
                          canonical_next_vals moves' curr_idx;
        Ok (0 :: Qs, children_pis, idx')
  end.

Fixpoint lookahead_states (canonical_next_states : list State)
    (canonical_pis : list (list R)) (canonical_next_vals : list R)
    (states : list State) (curr_idx : nat)
    : outcome (list (list (list R)) * list (list R) * nat) :=
  match states with
  | [] => Ok ([], [], curr_idx)
  | st :: states' =>
      '(Qs, children_pis, idx') ←
        lookahead_moves (get_valid_moves st) canonical_next_states canonical_pis
                        canonical_next_vals (seq 0 (get_action_size st)) curr_idx;
      '(batch_pis, batch_qvals, idx'') ←
        lookahead_states canonical_next_states canonical_pis canonical_next_vals
                         states' idx';
      Ok (children_pis :: batch_pis, Qs :: batch_qvals, idx'')
  end.

Definition get_immediate_lookahead (states : list State)
    : M (list (list (list R)) * list (list R) * list State) :=
  let canonical_next_states := all_children_states states in
  '(canonical_pis, canonical_next_vals) ← call_forward canonical_next_states;
  pure_M
    ('(batch_pis, batch_qvals, curr_idx) ←
       lookahead_states canonical_next_states canonical_pis canonical_next_vals
                        states 0;
     _ ← py_assert (curr_idx =? length canonical_next_vals)%nat;
     _ ← py_assert (curr_idx =? length canonical_pis)%nat;
     Ok (batch_pis, batch_qvals, canonical_next_states)).

(** ** The tree *)

Record MCTree : Type := mkTree {
  root : nat;
  board_size : nat;
  action_size : nat
}.

Definition raise_M {A : Type} (e : exn) : M A := fun _ => ([], Raise e).

Definition diverge_M {A : Type} : M A := fun _ => ([], Diverge).

(** A read of the heap that may raise. *)
Definition read_M {A : Type} (f : heap -> outcome A) : M A := fun h =>
  ([], a ← f h; Ok (a, h)).

Definition back_propagate_M (fuel : nat) (i : nat) (value_incre : R) : M unit :=
  heap_M (fun h => h' ← back_propagate fuel i value_incre h; Ok (tt, h')).

(** [MCTree.__init__] *)
Definition MCTree_init (fuel : nat) (st : State) : M MCTree :=
  '(action_probs, state_value) ← call_forward [st];
  probs ← pure_M (index action_probs 0);
  value ← pure_M (index state_value 0);
  r ← heap_M (Node_init None probs value (Board st));
  rn ← get_node r;
  _ ← pure_M (py_assert (negb (visited rn)));
  _ ← back_propagate_M fuel r (V rn);
  let '(_, rows, cols) := shape st in
  _ ← pure_M (py_assert (rows =? cols)%nat);
  mret (mkTree r rows (get_action_size (state rn))).

(** The loop of [cache_children] over [enumerate(valid_move_idcs)].  The
    third result of the lookahead is [canonical_next_states] itself, the
    array of all successor states (successors x channels x rows x columns);
    [batch_canonical_children[0]] is therefore the first successor and
    [batch_canonical_children[0][idx]] the slice [idx] of that state. *)
Fixpoint cache_loop (node : nat) (batch_pis : list (list (list R)))
    (batch_qvals : list (list R)) (batch_canonical_children : list State)
    (idx : nat) (moves : list nat) : M unit :=
  match moves with
  | [] => mret tt
  | move :: moves' =>
      pis0 ← pure_M (index batch_pis 0);
      probs ← pure_M (index pis0 idx);
      qvals0 ← pure_M (index batch_qvals 0);
      value ← pure_M (index qvals0 idx);
      child0 ← pure_M (index batch_canonical_children 0);
      st ← pure_M (slice child0 idx);
      _ ← heap_M (Node_init (Some (node, move)) probs value st);
      cache_loop node batch_pis batch_qvals batch_canonical_children (S idx) moves'
  end.

(** [MCTree.cache_children] *)
Definition cache_children (i : nat) : M unit :=
  node ← get_node i;
  if terminal node then mret tt
  else
    let valid_move_idcs := argwhere (get_valid_moves (state node)) in
    '(batch_pis, batch_qvals, batch_canonical_children) ←
      get_immediate_lookahead [state node];
    cache_loop i batch_pis batch_qvals batch_canonical_children 0 valid_move_idcs.

(** The running maximum of [select_best_child] starts at [np.NINF]. *)
Inductive ext_real : Type :=
| NINF
| Finite (r : R).

Definition exceeds (x : R) (m : ext_real) : bool :=
  match m with
  | NINF => true
  | Finite r => if Rgt_dec x r then true else false
  end.

(** [Q + U] for one move, as computed in the loop of [select_best_child]. *)
Definition UCB (h : heap) (node : Node) (u_const : R) (move : nat) : outcome R :=
  Q ← avg_Q h node move;
  child ← child_at h node move;
  let Nsa := N child in
  Psa ← index (action_probs node) move;
  let U := u_const * Psa * sqrt (INR (N node)) / (1 + INR Nsa) in
  Ok (Q + U).

Fixpoint best_move_loop (h : heap) (node : Node) (u_const : R) (moves : list nat)
    (best_move : option nat) (max_UCB : ext_real) : outcome (option nat) :=
  match moves with
  | [] => Ok best_move
  | move :: moves' =>
      ucb ← UCB h node u_const move;
      if exceeds ucb max_UCB
      then best_move_loop h node u_const moves' (Some move) (Finite ucb)
      else best_move_loop h node u_const moves' best_move max_UCB
  end.

(** [MCTree.select_best_child]: the child in the best slot and the move. *)
Definition select_best_child (i : nat) (u_const : R) : M (option nat * nat) :=
  node ← get_node i;
  _ ← (if cached_children node then mret tt else cache_children i);
  node ← get_node i;
  let valid_move_idcs := argwhere (get_valid_moves (state node)) in
  best ← read_M (fun h => best_move_loop h node u_const valid_move_idcs None NINF);
  match best with
  | None => raise_M MoveNoneError
  | Some best_move =>
      slot ← pure_M (index (children node) best_move);
      mret (slot, best_move)
  end.

(** The inner loop of [get_action_probs]: go down with the best move while
    the current node is visited and not terminal. *)
Fixpoint descend (fuel : nat) (curr_node : option nat) : M nat :=
  match curr_node with
  | None => raise_M AttributeError
  | Some c =>
      node ← get_node c;
      if visited node && negb (terminal node) then
        match fuel with
        | O => diverge_M
        | S fuel' =>
            '(child, move) ← select_best_child c 1;
            descend fuel' child
        end
      else mret c
  end.

(** One pass of the outer loop of [get_action_probs]. *)
Definition simulate (fuel : nat) (t : MCTree) : M unit :=
  curr_node ← descend fuel (Some (root t));
  node ← get_node curr_node;
  back_propagate_M fuel curr_node (V node).

(** [while num_search < max_num_searches], with [todo] the difference of
    the two; returns the final [num_search]. *)
Fixpoint search_loop (fuel : nat) (t : MCTree) (todo : nat) (num_search : nat) : M nat :=
  match todo with
  | O => mret num_search
  | S todo' =>
      _ ← simulate fuel t;
      search_loop fuel t todo' (S num_search)
  end.

(** [node.N if node is not None else 0] over the child slots. *)
Fixpoint visit_counts (h : heap) (cs : list (option nat)) : outcome (list nat) :=
  match cs with
  | [] => Ok []
  | slot :: cs' =>
      n ← match slot with
          | Some c => node ← deref h c; Ok (N node)
          | None => Ok 0%nat
          end;
      rest ← visit_counts h cs';
      Ok (n :: rest)
  end.

(** [sklearn.preprocessing.normalize([x], norm='l1')[0]]: every entry is
    divided by the sum of the absolute values, a zero sum being replaced
    by one. *)
Definition l1_norm (x : list R) : R := fold_right Rplus 0 (Rabs <$> x).

Definition normalize_l1 (x : list R) : outcome (list R) :=
  match x with
  | [] => Raise ValueError
  | _ =>
      let norm := l1_norm x in
      let norm := if Req_dec_T norm 0 then 1 else norm in
      Ok ((fun v => v / norm) <$> x)
  end.

(** [n ** e] for a visit count and a positive exponent. *)
Definition np_power (n : nat) (e : R) : R :=
  match n with
  | O => 0
  | S _ => Rpower (INR n) e
  end.

(** The least real that binary64 arithmetic rounds to infinity,
    [2^1024 - 2^970]. *)
Definition float_overflow : R := 2 ^ 970 * (2 ^ 54 - 1).

Arguments float_overflow : simpl never.

(** Whether some entry is infinite as a float; [normalize] rejects such an
    array with a [ValueError]. *)
Definition overflows (x : list R) : bool :=
  existsb (fun v => if Rge_dec v float_overflow then true else false) x.

(** Lines 124-128 of [get_action_probs]. *)
Definition compute_pi (Ns : list nat) (temp : R) : outcome (list R) :=
  if Rgt_dec temp 0 then
    let x := (fun n => np_power n (1 / temp)) <$> Ns in
    if overflows x then Raise ValueError else normalize_l1 x
  else
    match Ns with
    | [] => Raise ValueError
    | _ =>
        let best_actions := (fun n => n =? max_list Ns)%nat <$> Ns in
        normalize_l1 (bool_R <$> best_actions)
    end.

(** [MCTree.get_action_probs].  The counter of the loop is not part of the
    returned value. *)
Definition get_action_probs (fuel : nat) (t : MCTree) (max_num_searches : nat)
    (temp : R) : M (list R) :=
  _ ← pure_M (py_assert (0 <? max_num_searches)%nat);
  num_search ← search_loop fuel t max_num_searches 0;
  rn ← get_node (root t);
  Ns ← read_M (fun h => visit_counts h (children rn));
  pi ← pure_M (compute_pi Ns temp);
  mret pi.

(** [MCTree.step] *)
Definition step (fuel : nat) (t : MCTree) (action : nat) : M MCTree :=
  rn ← get_node (root t);
  slot ← pure_M (index (children rn) action);
  child ←
    match slot with
    | Some c => mret c
    | None =>
        let next_state := get_next_state (state rn) action in
        let next_turn := get_turn next_state in
        let canonical_state := get_canonical_form next_state next_turn in
        '(action_probs, state_value) ← call_forward [canonical_state];
        probs ← pure_M (index action_probs 0);
        value ← pure_M (index state_value 0);
        heap_M (Node_init None probs value (Board next_state))
    end;
  cn ← get_node child;
  _ ← heap_M (fun h => Ok (tt, <[child := set_parent cn None]> h));
  cn ← get_node child;
  _ ← (if visited cn then mret tt else back_propagate_M fuel child (V cn));
  mret (mkTree child (board_size t) (action_size t)).

(** [MCTree.reset] *)
Definition reset (fuel : nat) (t : MCTree) : M MCTree :=
  let initial_state := get_init_board (board_size t) in
  MCTree_init fuel initial_state.

(** ** Notions used to state the properties *)

(** The node reached from [i] by following [j] parent links. *)
Fixpoint ancestor (h : heap) (j : nat) (i : nat) : option nat :=
  match j with
  | O => Some i
  | S j' =>
      match h !! i with
      | Some n =>
          match parent n with
          | Some p => ancestor h j' p
          | None => None
          end
      | None => None
      end
  end.

(** [i] is a node of the heap exactly [k] parent links below a node
    without parent. *)
Fixpoint depth_is (h : heap) (k : nat) (i : nat) : Prop :=
  match h !! i with
  | None => False
  | Some n =>
      match k, parent n with
      | O, None => True
      | S k', Some p => depth_is h k' p
      | _, _ => False
      end
  end.

(** Two heaps with the same parent links. *)
Definition same_links (h h' : heap) : Prop :=
  ∀ i, parent <$> h' !! i = parent <$> h !! i.

(** The visit counts of the children that occupy the slots [cs]. *)
Definition child_counts (h : heap) (cs : list (option nat)) : list nat :=
  omap (fun slot : option nat => c ← slot; N <$> h !! c) cs.

(** The score of a move as the specification writes it, for the default
    exploration constant: [avg_Q + prior * sqrt(node.N) / (1 + child.N)]. *)
Definition ucb_formula (h : heap) (node : Node) (move : nat) : R :=
  match children node !! move with
  | Some (Some c) =>
      match h !! c, action_probs node !! move with
      | Some child, Some prior =>
          - (V child + Q_sum child) / (1 + INR (N node))
          + prior * sqrt (INR (N node)) / (1 + INR (N child))
      | _, _ => 0
      end
  | _ => 0
  end.

(** Every legal move of the node has a child in the heap and a prior. *)
Definition moves_cached (h : heap) (node : Node) : Prop :=
  ∀ move, move ∈ argwhere (get_valid_moves (state node)) →
    ∃ c, children node !! move = Some (Some c) ∧ is_Some (h !! c) ∧
         is_Some (action_probs node !! move).

(** What the loop of [select_best_child] knows after scanning [pre]. *)
Definition scanned (f : nat → R) (pre : list nat) (best : option nat) (m : ext_real) : Prop :=
  match best, m with
  | None, NINF => pre = []
  | Some b, Finite x =>
      x = f b ∧ ∃ l1 l2, pre = l1 ++ b :: l2 ∧
        (∀ a, a ∈ l1 → f a < f b) ∧ (∀ a, a ∈ l2 → f a <= f b)
  | _, _ => False
  end.

(** The number of legal moves of index below [a]. *)
Definition legal_rank (v : list bool) (a : nat) : nat :=
  length (argwhere (take a v)).

(** The position, in the batch sent to the evaluator, of the first
    successor of the state at position [b] of [states]. *)
Definition batch_offset (states : list State) (b : nat) : nat :=
  length (all_children_states (take b states)).

(** The visit count of every child slot, 0 for an empty slot. *)
Definition slot_counts (h : heap) (cs : list (option nat)) : list nat :=
  (fun slot : option nat =>
     match slot with
     | Some c => default 0%nat (N <$> h !! c)
     | None => 0%nat
     end) <$> cs.

Definition sum_R (x : list R) : R := fold_right Rplus 0 x.

(** The number of entries of [Ns] equal to the largest one. *)
Definition argmax_count (Ns : list nat) : nat :=
  length (filter (fun n => n = max_list Ns) Ns).

(** Every occupied slot holds an address of the heap. *)
Definition slots_valid (h : heap) (cs : list (option nat)) : Prop :=
  ∀ c, Some c ∈ cs → is_Some (h !! c).

(** ** The rest of [Node], and the policies built on the tree
    ([go_ai/policies.py]) *)

(** [Node.Qs]: the loop over [range(get_action_size(state))]. *)
Fixpoint Qs_loop (h : heap) (n : Node) (valid_moves : list bool) (moves : list nat)
    : outcome (list R) :=
  match moves with
  | [] => Ok []
  | move :: moves' =>
      valid ← index valid_moves move;
      q ← (if valid : bool then avg_Q h n move else Ok 0);
      rest ← Qs_loop h n valid_moves moves';
      Ok (q :: rest)
  end.

Definition Qs (h : heap) (n : Node) : outcome (list R) :=
  let valid_moves := get_valid_moves (state n) in
  Qs_loop h n valid_moves (seq 0 (get_action_size (state n))).

(** [RandomPolicy.__call__]: [valid_moves / np.sum(valid_moves)]. *)
Definition RandomPolicy_call (st : State) : list R :=
  let valid_moves := bool_R <$> get_valid_moves st in
  (fun v => v / fold_right Rplus 0 valid_moves) <$> valid_moves.

(** The evaluator of [GreedyPolicy], [board_area] being the
    [get_action_size(state) - 1] of the state given to the constructor: the
    value of a state is the area difference over the board area, or the
    sign of the difference once the game has ended; the priors are uniform
    vectors of length [int(board_area ** 0.5)] (the integer square root,
    [board_area] being a square). *)
Definition greedy_val (board_area : nat) (st : State) : R :=
  let '(black_area, white_area) := get_areas st in
  if get_game_ended st then
    if (white_area <? black_area)%nat then 1
    else if (black_area <? white_area)%nat then -1
    else 0
  else (INR black_area - INR white_area) / INR board_area.

Definition greedy_forward_func (board_area : nat) (states : list State)
    : list (list R) * list R :=
  let board_length := Nat.sqrt board_area in
  let batch_size := length states in
  let vals := greedy_val board_area <$> states in
  (replicate batch_size (replicate board_length (1 / INR board_length)), vals).

(** The default [temp_func] of [MctPolicy]. *)
Definition default_temp_func (step : nat) : R :=
  if (step <? 16)%nat then 1 / 8 else 0.

Record MctPolicy : Type := mkMctPolicy {
  mc_sims : nat;
  temp_func : nat -> R;
  tree : MCTree
}.

(** [MctPolicy.__init__], the evaluator being the one of the network. *)
Definition MctPolicy_init (fuel : nat) (st : State) (sims : nat)
    (temp_of : nat -> R) : M MctPolicy :=
  t ← MCTree_init fuel st;
  mret (mkMctPolicy sims temp_of t).

(** [MctPolicy.__call__] *)
Definition MctPolicy_call (fuel : nat) (p : MctPolicy) (step_no : nat) : M (list R) :=
  let temp := temp_func p step_no in
  get_action_probs fuel (tree p) (mc_sims p) temp.

(** [MctPolicy.step] *)
Definition MctPolicy_step (fuel : nat) (p : MctPolicy) (action : nat) : M MctPolicy :=
  t ← step fuel (tree p) action;
  mret (mkMctPolicy (mc_sims p) (temp_func p) t).

(** [MctPolicy.reset] *)
Definition MctPolicy_reset (fuel : nat) (p : MctPolicy) : M MctPolicy :=
  t ← reset fuel (tree p);
  mret (mkMctPolicy (mc_sims p) (temp_func p) t).

(** The number of legal moves. *)
Definition legal_count (v : list bool) : nat := length (argwhere v).

End MCTS.

Arguments Node State : clear implicits.
Arguments ndarray State : clear implicits.
Arguments M State A : clear implicits.

Abbreviation heap State := (list (Node State)) (only parsing).

(** ** Action encodings

    [action_2d_to_1d] ([mcts/test_MCTS.py]) and [action_1d_to_2d]
    ([go_ai/metrics.py]) convert between board coordinates and action
    indices, [None] being the pass.  Python integers are [Z]; [//] and [%]
    round towards minus infinity as [Z.div] and [Z.modulo] do, and raise
    for a zero divisor. *)

Definition action_2d_to_1d (action_2d : option (Z * Z)) (board_width : Z) : Z :=
  match action_2d with
  | None => (board_width ^ 2)%Z
  | Some (row, col) => (row * board_width + col)%Z
  end.

Inductive div_result (A : Type) : Type :=
| Returns (a : A)
| ZeroDivisionError.

Arguments Returns {A} a.
Arguments ZeroDivisionError {A}.

Definition action_1d_to_2d (action_1d board_width : Z) : div_result (option (Z * Z)) :=
  if (action_1d =? board_width ^ 2)%Z then Returns None
  else if (board_width =? 0)%Z then ZeroDivisionError
  else Returns (Some ((action_1d / board_width)%Z, (action_1d mod board_width)%Z)).

(** ** A small game for the examples

    One point and the pass: action 0 plays the point (legal once), action 1
    passes, two passes in a row end the game.  A state records the moves
    played and whether the two players' channels are swapped; the canonical
    form for player 1 swaps them. *)

Record toy_state : Set := Toy { plies : list nat; swapped : bool }.

Definition toy_owner_from (i : nat) (ps : list nat) : option bool :=
  (fun j => Nat.odd (i + j)) <$> (fst <$> list_find (fun a => a = 0%nat) ps).

Definition toy_areas (s : toy_state) : nat * nat :=
  let '(first, second) :=
    match toy_owner_from 0 (plies s) with
    | None => (0, 0)
    | Some false => (1, 0)
    | Some true => (0, 1)
    end%nat in
  if swapped s then (second, first) else (first, second).

Definition toy_ended (s : toy_state) : bool :=
  match reverse (plies s) with
  | 1%nat :: 1%nat :: _ => true
  | _ => false
  end.

#[export] Instance toy_game : GoGame toy_state := {|
  get_valid_moves s := [negb (bool_decide (0%nat ∈ plies s)); true];
  get_action_size s := 2%nat;
  get_next_state s a := Toy (plies s ++ [a]) (swapped s);
  get_turn s := (length (plies s) mod 2)%nat;
  get_canonical_form s t := if (t =? 1)%nat then Toy (plies s) (negb (swapped s)) else s;
  get_game_ended := toy_ended;
  get_areas := toy_areas;
  get_init_board _ := Toy [] false;
  shape _ := (6, 1, 1)%nat
|}.

(** A game in which no move is ever legal. *)
#[export] Instance stuck_game : GoGame unit := {|
  get_valid_moves _ := [false; false];
  get_action_size _ := 2%nat;
  get_next_state s _ := s;
  get_turn _ := 0%nat;
  get_canonical_form s _ := s;
  get_game_ended _ := false;
  get_areas _ := (0, 0)%nat;
  get_init_board _ := tt;
  shape _ := (6, 1, 1)%nat
|}.

Definition stuck_forward (batch : list unit) : list (list R) * list R :=
  ((fun _ => [1 / 2; 1 / 2]) <$> batch, (fun _ => 0) <$> batch).

Definition stuck_heap : heap unit :=
  [ mkNode None 0 [None; None] [1 / 2; 1 / 2] tt 0 false 1 0 0 ].

(** An evaluator with uniform priors and value 0, and one that returns
    nothing whatever the batch. *)
Definition toy_forward (batch : list toy_state) : list (list R) * list R :=
  ((fun _ => [1 / 2; 1 / 2]) <$> batch, (fun _ => 0) <$> batch).

Definition silent_forward (batch : list toy_state) : list (list R) * list R :=
  ([], []).

Definition toy_node (par : option nat) (hgt : nat) (cs : list (option nat))
    (s : toy_state) (visits : nat) (value q : R) : Node toy_state :=
  mkNode par hgt cs [1 / 2; 1 / 2] s (get_turn s) (get_game_ended s) visits value q.

(** A root at the empty board with both children cached, the first of
    which has a cached child of its own. *)
Definition toy_heap : heap toy_state :=
  [ toy_node None 0 [Some 1; Some 2]%nat (Toy [] false) 1 0 0;
    toy_node (Some 0%nat) 1 [None; Some 3%nat] (Toy [0%nat] true) 0 (1 / 2) 0;
    toy_node (Some 0%nat) 1 [None; None] (Toy [1%nat] true) 0 0 0;
    toy_node (Some 1%nat) 2 [None; None] (Toy [0; 1]%nat true) 0 1 0 ].

(** An unvisited node whose only child has been visited once. *)
Definition stale_heap : heap toy_state :=
  [ toy_node None 0 [Some 1%nat; None] (Toy [] false) 0 0 0;
    toy_node (Some 0%nat) 1 [None; None] (Toy [0%nat] true) 1 0 0 ].

Definition toy_tree : MCTree := mkTree 0 1 2.

(** A root after one pass, visited three times: its first child (the
    point) is cached and unvisited, its second child (the second pass, which
    ends the game) has been visited twice. *)
Definition pass_heap : heap toy_state :=
  [ toy_node None 0 [Some 1; Some 2]%nat (Toy [1%nat] true) 3 0 0;
    toy_node (Some 0%nat) 1 [None; None] (Toy [1; 0]%nat true) 0 0 0;
    toy_node (Some 0%nat) 1 [None; None] (Toy [1; 1]%nat true) 2 0 0 ].

Definition pass_tree : MCTree := mkTree 0 1 2.

(** The tree built on the empty board: the root alone, visited once. *)
Definition fresh_heap : heap toy_state :=
  [ toy_node None 0 [None; None] (Toy [] false) 1 0 (0 + 0) ].

Definition fresh_tree : MCTree := mkTree 0 1 2.

(** The tree built on a finished game (two passes). *)
Definition ended_heap : heap toy_state :=
  [ toy_node None 0 [None; None] (Toy [1; 1]%nat false) 1 0 (0 + 0) ].

Definition ended_tree : MCTree := mkTree 0 1 2.

(** * Properties *)

Section NodeProperties.

Context {State : Type} {G : GoGame State}.
Implicit Types (h : heap State) (n : Node State).

Lemma deref_Some h i n : h !! i = Some n → deref h i = Ok n.
Proof. unfold deref. by intros ->. Qed.

Lemma depth_is_same_links h h' k i :
  same_links h h' → depth_is h k i → depth_is h' k i.
Proof.
  intros Hl. revert i. induction k as [|k IH]; intros i; simpl;
    specialize (Hl i); destruct (h !! i) as [n|], (h' !! i) as [n'|];
    simpl in Hl; try done; inversion Hl as [Hp]; rewrite Hp;
    destruct (parent n); auto.
Qed.

Lemma ancestor_same_links h h' j i :
  same_links h h' → ancestor h' j i = ancestor h j i.
Proof.
  intros Hl. revert i. induction j as [|j IH]; intros i; simpl; [done|].
  specialize (Hl i). destruct (h !! i) as [n|], (h' !! i) as [n'|];
    simpl in Hl; try done. inversion Hl as [Hp]. rewrite Hp.
  destruct (parent n); auto.
Qed.

Lemma same_links_bump h a n v :
  h !! a = Some n → same_links h (<[a := bump n v]> h).
Proof.
  intros Ha i. destruct (decide (a = i)) as [->|Hne].
  - rewrite list_lookup_insert_eq by (by eapply lookup_lt_Some). by rewrite Ha.
  - by rewrite list_lookup_insert_ne.
Qed.

Lemma depth_is_unique h k k' i : depth_is h k i → depth_is h k' i → k = k'.
Proof.
  revert k' i. induction k as [|k IH]; intros [|k'] i; simpl;
    destruct (h !! i) as [n|]; try done; destruct (parent n); try done.
  intros H1 H2. f_equal. eauto.
Qed.

Lemma ancestor_depth h k i j :
  depth_is h k i → (j ≤ k)%nat →
  ∃ a, ancestor h j i = Some a ∧ depth_is h (k - j) a.
Proof.
  revert k i. induction j as [|j IH]; intros k i Hd Hj.
  - exists i. by rewrite Nat.sub_0_r.
  - destruct k as [|k]; [lia|]. simpl in *.
    destruct (h !! i) as [n|]; [|done]. destruct (parent n) as [p|]; [|done].
    apply IH; [done|lia].
Qed.

Lemma depth_is_lookup h k i : depth_is h k i → is_Some (h !! i).
Proof. destruct k; simpl; destruct (h !! i); by eauto. Qed.

(** C6: [back_propagate(v)] called on a node [k] levels below the root
    returns (given fuel for [k+1] calls); in the resulting heap the node
    and each of its ancestors up to the root has [N] incremented by exactly
    one and [Q_sum] increased by the increment with alternating sign ([+v]
    at the node, [-v] at its parent, [+v] at its grandparent, ...), and
    every other node is unchanged. *)
Theorem back_propagate_alternates h k i v fuel :
  depth_is h k i → (k < fuel)%nat →
  ∃ h', back_propagate fuel i v h = Ok h' ∧
    length h' = length h ∧
    (∀ j a n, (j ≤ k)%nat → ancestor h j i = Some a → h !! a = Some n →
       h' !! a = Some (bump n ((-1) ^ j * v)) ∧
       N (bump n ((-1) ^ j * v)) = S (N n) ∧
       Q_sum (bump n ((-1) ^ j * v)) = Q_sum n + (-1) ^ j * v) ∧
    (∀ a, (∀ j, (j ≤ k)%nat → ancestor h j i ≠ Some a) → h' !! a = h !! a).
Proof.
  revert h i v fuel. induction k as [|k IH]; intros h i v fuel Hd Hf.
  - destruct fuel as [|fuel]; [lia|]. simpl in *.
    destruct (h !! i) as [n|] eqn:Hi; [|done].
    destruct (parent n) eqn:Hp; [done|].
    rewrite (deref_Some _ _ _ Hi). simpl. rewrite Hp.
    eexists. split; [done|]. split; [by rewrite length_insert|]. split.
    + intros j a n' Hj Ha Hn. assert (j = 0%nat) as -> by lia.
      simpl in Ha. injection Ha as <-. rewrite Hi in Hn. injection Hn as <-.
      rewrite list_lookup_insert_eq by (by eapply lookup_lt_Some).
      repeat split. by rewrite pow_O, Rmult_1_l.
    + intros a Ha. rewrite list_lookup_insert_ne; [done|].
      intros ->. by apply (Ha 0%nat); [lia|].
  - destruct fuel as [|fuel]; [lia|].
    pose proof Hd as Hd0. simpl in Hd |- *.
    destruct (h !! i) as [n|] eqn:Hi; [|done].
    destruct (parent n) as [p|] eqn:Hp; [|done].
    rewrite (deref_Some _ _ _ Hi). simpl. rewrite Hp.
    pose proof (same_links_bump h i n v Hi) as Hl.
    destruct (IH (<[i := bump n v]> h) p (- v) fuel) as (h' & Hbp & Hlen & Hanc & Hoth);
      [by eapply depth_is_same_links|lia|].
    assert (Hnoti : ∀ j, (j ≤ k)%nat → ancestor h j p ≠ Some i).
    { intros j Hj Hji.
      destruct (ancestor_depth h k p j Hd Hj) as (a & Ha & Hda).
      rewrite Hji in Ha. injection Ha as <-.
      pose proof (depth_is_unique _ _ _ _ Hd0 Hda). lia. }
    exists h'. split; [done|]. split; [by rewrite Hlen, length_insert|]. split.
    + intros j a n' Hj Ha Hn. destruct j as [|j].
      * simpl in Ha. injection Ha as <-. rewrite Hi in Hn. injection Hn as <-.
        rewrite Hoth.
        -- rewrite list_lookup_insert_eq by (by eapply lookup_lt_Some).
           repeat split. by rewrite pow_O, Rmult_1_l.
        -- intros j Hj'. rewrite (ancestor_same_links h) by done. by apply Hnoti.
      * simpl in Ha. rewrite Hi, Hp in Ha.
        assert (a ≠ i) as Hai. { intros ->. by apply (Hnoti j); [lia|]. }
        destruct (Hanc j a n') as (Hres & _); [lia| |by rewrite list_lookup_insert_ne|].
        { by rewrite (ancestor_same_links h). }
        replace ((-1) ^ S j * v) with ((-1) ^ j * - v) by (simpl; lra).
        by repeat split.
    + intros a Ha. rewrite Hoth.
      * rewrite list_lookup_insert_ne; [done|]. intros ->. by apply (Ha 0%nat); [lia|].
      * intros j Hj Hja. rewrite (ancestor_same_links h) in Hja by done.
        apply (Ha (S j)); [lia|]. simpl. by rewrite Hi, Hp.
Qed.

Lemma real_children_N_counts h cs :
  slots_valid h cs → real_children_N h cs = Ok (child_counts h cs).
Proof.
  unfold slots_valid, child_counts. induction cs as [|[c|] cs IH]; intros Hv; simpl.
  - done.
  - destruct (Hv c) as [n Hn]; [left|].
    rewrite (deref_Some _ _ _ Hn), Hn. simpl.
    rewrite IH; [done|]. intros c' Hc'. apply Hv. by right.
  - apply IH. intros c' Hc'. apply Hv. by right.
Qed.

(** C7, as the code has it: [is_leaf()] returns, and returns true exactly
    when the node has been visited exactly once ([N == 1]) or the visit
    counts of its real (non-null) children sum to at most 0. *)
Theorem is_leaf_iff h n :
  slots_valid h (children n) →
  ∃ b, is_leaf h n = Ok b ∧
    (b = true ↔ (N n = 1%nat ∨ (sum_list (child_counts h (children n)) ≤ 0)%nat)).
Proof.
  intros Hv. unfold is_leaf. destruct (N n =? 1)%nat eqn:HN.
  - exists true. split; [done|]. apply Nat.eqb_eq in HN. tauto.
  - rewrite (real_children_N_counts _ _ Hv). simpl. eexists. split; [done|].
    apply Nat.eqb_neq in HN. rewrite Nat.leb_le. tauto.
Qed.

(** C5: for a node with a child in slot [a], [avg_Q(a)] returns
    [-(child.V + child.Q_sum) / (1 + node.N)]; the denominator is positive
    whatever the visit counts of the node and of the child, so the quotient
    is defined. *)
Theorem avg_Q_formula h n a c child :
  children n !! a = Some (Some c) → h !! c = Some child →
  avg_Q h n a = Ok (- (V child + Q_sum child) / (1 + INR (N n))) ∧
  0 < 1 + INR (N n).
Proof.
  intros Ha Hc. pose proof (pos_INR (N n)) as Hpos. split; [|lra].
  unfold avg_Q, child_at, index. rewrite Ha. simpl.
  rewrite (deref_Some _ _ _ Hc). simpl. f_equal. field. lra.
Qed.

End NodeProperties.

Lemma back_propagate_alternates_witness :
  ∃ h', back_propagate 3 3 1 toy_heap = Ok h' ∧ length h' = length toy_heap.
Proof.
  destruct (back_propagate_alternates toy_heap 2 3 1 3) as (h' & H & Hl & _).
  - simpl. exact I.
  - lia.
  - by exists h'.
Defined.

Lemma is_leaf_iff_witness :
  ∃ b, is_leaf toy_heap (toy_node None 0 [Some 1; Some 2]%nat (Toy [] false) 2 0 0) = Ok b.
Proof.
  destruct (is_leaf_iff toy_heap
              (toy_node None 0 [Some 1; Some 2]%nat (Toy [] false) 2 0 0)) as (b & H & _).
  - intros c Hc. simpl in Hc. apply elem_of_cons in Hc as [Hc|Hc].
    + injection Hc as ->. by eexists.
    + apply elem_of_cons in Hc as [Hc|Hc]; [|by apply elem_of_nil in Hc].
      injection Hc as ->. by eexists.
  - by exists b.
Defined.

(** C7 as stated fails: a node that has never been visited ([N = 0]) but
    has a visited child is not a leaf for [is_leaf()]. *)
Lemma is_leaf_never_visited_counterexample :
  let n := toy_node None 0 [Some 1%nat; None] (Toy [] false) 0 0 0 in
  stale_heap !! 0%nat = Some n ∧
  ¬ (is_leaf stale_heap n = Ok true ↔
     (visited n = false ∨ (sum_list (child_counts stale_heap (children n)) ≤ 0)%nat)).
Proof.
  split; [done|]. intros [_ H].
  assert (is_leaf stale_heap (toy_node None 0 [Some 1%nat; None] (Toy [] false) 0 0 0)
          = Ok false) as Hf by reflexivity.
  rewrite Hf in H. discriminate H. by left.
Qed.

Lemma avg_Q_formula_witness :
  avg_Q toy_heap (toy_node None 0 [Some 1; Some 2]%nat (Toy [] false) 1 0 0) 0
  = Ok (- (1 / 2 + 0) / (1 + INR 1)).
Proof.
  exact (proj1 (avg_Q_formula toy_heap
                  (toy_node None 0 [Some 1; Some 2]%nat (Toy [] false) 1 0 0) 0 1
                  (toy_node (Some 0%nat) 1 [None; Some 3%nat] (Toy [0%nat] true) 0 (1 / 2) 0)
                  eq_refl eq_refl)).
Defined.

Section SelectProperties.

Context {State : Type} {G : GoGame State}.
Variable forward_func : list State → list (list R) * list R.
Implicit Types (h : heap State) (node : Node State).

Lemma argwhere_from_lb i v m : m ∈ argwhere_from i v → (i ≤ m)%nat.
Proof.
  revert i. induction v as [|b v IH]; intros i; simpl.
  - by intros ?%elem_of_nil.
  - destruct b.
    + intros [->|Hm%IH]%elem_of_cons; lia.
    + intros Hm%IH. lia.
Qed.

Lemma argwhere_from_sorted i v : StronglySorted lt (argwhere_from i v).
Proof.
  revert i. induction v as [|b v IH]; intros i; simpl; [constructor|].
  destruct b; [|done]. constructor; [done|].
  apply list.Forall_forall. intros m Hm%argwhere_from_lb. lia.
Qed.

Lemma argwhere_from_elem i v m :
  m ∈ argwhere_from i v ↔ (i ≤ m)%nat ∧ v !! (m - i)%nat = Some true.
Proof.
  revert i. induction v as [|b v IH]; intros i; simpl.
  - rewrite elem_of_nil, lookup_nil. split; [done|by intros [_ ?]].
  - assert (Hstep : (i ≤ m)%nat ∧ (b :: v) !! (m - i)%nat = Some true ↔
                    (m = i ∧ b = true) ∨ ((S i ≤ m)%nat ∧ v !! (m - S i)%nat = Some true)).
    { destruct (decide (m = i)) as [->|Hne].
      - rewrite Nat.sub_diag. simpl. split; [intros [_ [= ->]]; by left|].
        intros [[_ ->]|[? _]]; [done|lia].
      - split.
        + intros [Hle Hl]. right. split; [lia|].
          replace (m - i)%nat with (S (m - S i)) in Hl by lia. done.
        + intros [[? _]|[Hle Hl]]; [done|]. split; [lia|].
          replace (m - i)%nat with (S (m - S i)) by lia. done. }
    rewrite Hstep. destruct b.
    + rewrite elem_of_cons, IH. split.
      * intros [->|?]; [by left|by right].
      * intros [[-> _]|?]; [by left|by right].
    + rewrite IH. split; [by right|]. by intros [[_ ?]|?].
Qed.

Lemma argwhere_elem v m : m ∈ argwhere v ↔ v !! m = Some true.
Proof.
  unfold argwhere. rewrite argwhere_from_elem, Nat.sub_0_r.
  split; [by intros [_ ?]|]. intros ?. split; [lia|done].
Qed.

Lemma best_move_loop_scanned h node u f moves : ∀ pre best m,
  (∀ a, a ∈ moves → UCB h node u a = Ok (f a)) →
  scanned f pre best m →
  ∃ best' m', best_move_loop h node u moves best m = Ok best' ∧
              scanned f (pre ++ moves) best' m'.
Proof.
  induction moves as [|a moves IH]; intros pre best m Hf Hs; simpl.
  - exists best, m. by rewrite app_nil_r.
  - rewrite (Hf a) by left. simpl.
    assert (Hf' : ∀ a', a' ∈ moves → UCB h node u a' = Ok (f a')).
    { intros a' Ha'. apply Hf. by right. }
    replace (pre ++ a :: moves) with ((pre ++ [a]) ++ moves) by (by rewrite <- app_assoc).
    destruct best as [b|], m as [|x]; simpl in Hs; try done.
    + destruct Hs as (-> & l1 & l2 & -> & H1 & H2). simpl.
      destruct (Rgt_dec (f a) (f b)) as [Hgt|Hle].
      * apply IH; [done|]. simpl. split; [done|].
        exists (l1 ++ b :: l2), []. split; [done|]. split.
        -- intros a' [Ha'|Ha']%elem_of_app.
           ++ specialize (H1 a' Ha'). lra.
           ++ apply elem_of_cons in Ha' as [->|Ha']; [lra|].
              specialize (H2 a' Ha'). lra.
        -- by intros a' ?%elem_of_nil.
      * apply IH; [done|]. simpl. split; [done|].
        exists l1, (l2 ++ [a]). split; [by rewrite <- app_assoc|]. split; [done|].
        intros a' [Ha'|Ha']%elem_of_app; [by apply H2|].
        apply list_elem_of_singleton in Ha' as ->. lra.
    + subst pre. simpl. apply (IH [a]); [done|]. simpl. split; [done|].
      exists [], []. split; [done|]. split; by intros a' ?%elem_of_nil.
Qed.

Lemma UCB_formula h node move c :
  children node !! move = Some (Some c) → is_Some (h !! c) →
  is_Some (action_probs node !! move) →
  UCB h node 1 move = Ok (ucb_formula h node move).
Proof.
  intros Hc [child Hchild] [p Hp].
  pose proof (pos_INR (N node)). pose proof (pos_INR (N child)).
  unfold UCB, avg_Q, child_at, index, ucb_formula. rewrite Hc. simpl.
  rewrite (deref_Some _ _ _ Hchild). simpl. rewrite Hp, Hchild. simpl.
  f_equal. field. lra.
Qed.

(** C3: on a node whose legal moves all have a cached child with a prior
    (and at least one move is legal), [select_best_child(node)] with the default
    exploration constant 1 returns a legal move and the child in its slot;
    the score computed for every legal move is
    [avg_Q(move) + prior[move] * sqrt(node.N) / (1 + child.N)]; no legal
    move scores higher than the returned one, and every legal move of lower
    index scores strictly lower: the scan keeps the first maximum. *)
Theorem select_best_child_first_max i h node :
  h !! i = Some node →
  moves_cached h node →
  argwhere (get_valid_moves (state node)) ≠ [] →
  ∃ best c,
    select_best_child forward_func i 1 h = ([], Ok (Some c, best, h)) ∧
    get_valid_moves (state node) !! best = Some true ∧
    children node !! best = Some (Some c) ∧
    (∀ move, get_valid_moves (state node) !! move = Some true →
       UCB h node 1 move = Ok (ucb_formula h node move) ∧
       ucb_formula h node move <= ucb_formula h node best ∧
       ((move < best)%nat → ucb_formula h node move < ucb_formula h node best)).
Proof.
  intros Hi Hm Hne.
  set (moves := argwhere (get_valid_moves (state node))) in *.
  assert (Hc : cached_children node = true).
  { destruct moves as [|a moves'] eqn:Hmoves; [done|].
    destruct (Hm a) as (c & Hslot & _); [fold moves; rewrite Hmoves; left|].
    unfold cached_children. apply existsb_exists. exists (Some c).
    split; [|done]. apply list_elem_of_In, list_elem_of_lookup. by exists a. }
  assert (Hf : ∀ a, a ∈ moves → UCB h node 1 a = Ok (ucb_formula h node a)).
  { intros a Ha. destruct (Hm a Ha) as (c & ? & ? & ?). by eapply UCB_formula. }
  destruct (best_move_loop_scanned h node 1 (ucb_formula h node) moves [] None NINF)
    as (best' & m' & Hloop & Hs); [done|done|].
  simpl in Hs. destruct best' as [b|], m' as [|x]; simpl in Hs; try done.
  destruct Hs as (_ & l1 & l2 & Hsplit & H1 & H2).
  assert (Hb : b ∈ moves). { rewrite Hsplit. apply elem_of_app. right. by left. }
  destruct (Hm b Hb) as (c & Hcb & _ & _).
  exists b, c. split; [|split; [|split]].
  - unfold select_best_child, mbind, M_bind, bind_M, get_node.
    rewrite (deref_Some _ _ _ Hi). simpl. rewrite Hc. simpl.
    rewrite (deref_Some _ _ _ Hi). simpl. unfold read_M. fold moves.
    rewrite Hloop. simpl. unfold index. rewrite Hcb. done.
  - by apply argwhere_elem.
  - done.
  - intros a Ha%argwhere_elem. fold moves in Ha. split; [by apply Hf|].
    pose proof (argwhere_from_sorted 0 (get_valid_moves (state node))) as Hsort.
    fold (argwhere (get_valid_moves (state node))) in Hsort. fold moves in Hsort.
    rewrite Hsplit in Ha, Hsort.
    apply elem_of_app in Ha as [Ha|Ha].
    + specialize (H1 a Ha). split; [lra|done].
    + apply elem_of_cons in Ha as [->|Ha]; [split; [lra|lia]|].
      specialize (H2 a Ha). split; [done|]. intros Hlt.
      apply StronglySorted_app_1_r, StronglySorted_cons in Hsort as [Hall _].
      rewrite list.Forall_forall in Hall. specialize (Hall a Ha). lia.
Qed.

End SelectProperties.

Lemma select_best_child_first_max_witness :
  ∃ best c, select_best_child toy_forward 0 1 toy_heap = ([], Ok (Some c, best, toy_heap)).
Proof.
  destruct (select_best_child_first_max toy_forward 0 toy_heap
              (toy_node None 0 [Some 1; Some 2]%nat (Toy [] false) 1 0 0))
    as (best & c & H & _).
  - reflexivity.
  - intros move Hm. vm_compute in Hm.
    apply elem_of_cons in Hm as [->|Hm]; [exists 1%nat; by repeat split; eexists|].
    apply elem_of_cons in Hm as [->|Hm]; [exists 2%nat; by repeat split; eexists|].
    by apply elem_of_nil in Hm.
  - discriminate.
  - by exists best, c.
Defined.

Section LookaheadProperties.

Context {State : Type} {G : GoGame State}.
Variable forward_func : list State → list (list R) * list R.

Lemma argwhere_from_app i l1 l2 :
  argwhere_from i (l1 ++ l2) = argwhere_from i l1 ++ argwhere_from (i + length l1) l2.
Proof.
  revert i. induction l1 as [|b l1 IH]; intros i; simpl.
  - by rewrite Nat.add_0_r.
  - rewrite IH. replace (S i + length l1)%nat with (i + S (length l1))%nat by lia.
    by destruct b.
Qed.

Lemma legal_rank_S_true v a :
  v !! a = Some true → legal_rank v (S a) = S (legal_rank v a).
Proof.
  intros Ha. unfold legal_rank, argwhere.
  rewrite (take_S_r _ _ _ Ha), argwhere_from_app, length_app. simpl. lia.
Qed.

Lemma legal_rank_S_false v a :
  v !! a = Some false → legal_rank v (S a) = legal_rank v a.
Proof.
  intros Ha. unfold legal_rank, argwhere.
  rewrite (take_S_r _ _ _ Ha), argwhere_from_app, length_app. simpl. lia.
Qed.

Lemma legal_rank_all v : legal_rank v (length v) = length (argwhere v).
Proof. unfold legal_rank. by rewrite firstn_all. Qed.

Lemma argwhere_split v a :
  v !! a = Some true →
  argwhere v = argwhere (take a v) ++ a :: argwhere_from (S a) (drop (S a) v).
Proof.
  intros Ha. unfold argwhere.
  rewrite <- (take_drop_middle _ _ _ Ha) at 1.
  rewrite argwhere_from_app. simpl. rewrite length_take.
  apply lookup_lt_Some in Ha. by rewrite Nat.min_l by lia.
Qed.

Lemma argwhere_lookup_rank v a :
  v !! a = Some true → argwhere v !! legal_rank v a = Some a.
Proof.
  intros Ha. unfold legal_rank. rewrite (argwhere_split _ _ Ha) at 1.
  rewrite lookup_app_r by done. by rewrite Nat.sub_diag.
Qed.

Lemma legal_rank_mono v a a' : (a ≤ a')%nat → (legal_rank v a ≤ legal_rank v a')%nat.
Proof.
  intros Hle. unfold legal_rank, argwhere.
  rewrite <- (take_drop a (take a' v)), take_take, Nat.min_l by done.
  rewrite argwhere_from_app, length_app. lia.
Qed.

Implicit Types (v : list bool) (cns : list State) (pis : list (list R)) (vals : list R).

Lemma terminal_override (t : bool) (x w : R) :
  (1 - bool_R t) * x + bool_R t * w = if t then w else x.
Proof. destruct t; simpl; lra. Qed.

Lemma lookahead_moves_inv v cns pis vals base : ∀ n a0 Qs cpis idx',
  (a0 + n ≤ length v)%nat →
  lookahead_moves v cns pis vals (seq a0 n) (base + legal_rank v a0) = Ok (Qs, cpis, idx') →
  idx' = (base + legal_rank v (a0 + n))%nat ∧ length Qs = n ∧
  (legal_rank v a0 < legal_rank v (a0 + n) → idx' ≤ length vals ∧ idx' ≤ length pis)%nat ∧
  ∀ k, (k < n)%nat →
    (v !! (a0 + k)%nat = Some false → Qs !! k = Some 0) ∧
    (v !! (a0 + k)%nat = Some true →
       ∃ child x, cns !! (base + legal_rank v (a0 + k))%nat = Some child ∧
                  vals !! (base + legal_rank v (a0 + k))%nat = Some x ∧
                  Qs !! k = Some (- (if get_game_ended child
                                     then canonical_winning child else x))).
Proof.
  induction n as [|n IH]; intros a0 Qs cpis idx' Hlen Hrun.
  - simpl in Hrun. injection Hrun as <- <- <-. rewrite Nat.add_0_r.
    repeat split; [lia|lia|intros; lia|intros; lia].
  - simpl in Hrun. unfold index in Hrun.
    destruct (v !! a0) as [b|] eqn:Hb; [|apply lookup_ge_None in Hb; lia].
    simpl in Hrun. destruct b.
    + destruct (cns !! (base + legal_rank v a0)%nat) as [child|] eqn:Hc; [|done].
      simpl in Hrun.
      destruct (vals !! (base + legal_rank v a0)%nat) as [x|] eqn:Hx; [|done].
      simpl in Hrun.
      destruct (pis !! (base + legal_rank v a0)%nat) as [p|] eqn:Hp; [|done].
      simpl in Hrun.
      replace (S (base + legal_rank v a0)) with (base + legal_rank v (S a0))%nat in Hrun
        by (rewrite (legal_rank_S_true _ _ Hb); lia).
      destruct (lookahead_moves v cns pis vals (seq (S a0) n) (base + legal_rank v (S a0)))
        as [[[Qs' cpis'] idx'']| |] eqn:Hrec; simpl in Hrun; try done.
      injection Hrun as <- <- <-.
      destruct (IH (S a0) Qs' cpis' idx'') as (-> & HQ & Hb' & Hk); [lia|done|].
      replace (a0 + S n)%nat with (S a0 + n)%nat by lia.
      split; [done|]. split; [simpl; lia|]. split.
      { intros _. pose proof (legal_rank_mono v (S a0) (S a0 + n)) as Hm.
        rewrite (legal_rank_S_true _ _ Hb) in Hm.
        apply lookup_lt_Some in Hx, Hp.
        destruct (decide (legal_rank v (S a0) < legal_rank v (S a0 + n))%nat) as [Hlt|Hge].
        - by apply Hb'.
        - rewrite (legal_rank_S_true _ _ Hb) in Hge.
          assert (legal_rank v (S a0 + n) = S (legal_rank v a0)) as -> by lia. lia. }
      intros [|k] Hk'.
      * rewrite Nat.add_0_r, Hb. split; [done|]. intros _.
        exists child, x. repeat split; [done..|]. simpl. do 2 f_equal.
        apply terminal_override.
      * replace (a0 + S k)%nat with (S a0 + k)%nat by lia. simpl. apply Hk. lia.
    + replace (base + legal_rank v a0)%nat with (base + legal_rank v (S a0))%nat in Hrun
        by (by rewrite (legal_rank_S_false _ _ Hb)).
      destruct (lookahead_moves v cns pis vals (seq (S a0) n) (base + legal_rank v (S a0)))
        as [[[Qs' cpis'] idx'']| |] eqn:Hrec; simpl in Hrun; try done.
      injection Hrun as <- <- <-.
      destruct (IH (S a0) Qs' cpis' idx'') as (-> & HQ & Hb' & Hk); [lia|done|].
      replace (a0 + S n)%nat with (S a0 + n)%nat by lia.
      split; [done|]. split; [simpl; lia|]. split.
      { rewrite <- (legal_rank_S_false _ _ Hb). done. }
      intros [|k] Hk'.
      * rewrite Nat.add_0_r, Hb. split; [done|]. done.
      * replace (a0 + S k)%nat with (S a0 + k)%nat by lia. simpl. apply Hk. lia.
Qed.

Lemma lookahead_moves_ok v cns pis vals base : ∀ n a0,
  (a0 + n ≤ length v)%nat →
  (base + legal_rank v (a0 + n) ≤ length cns)%nat →
  (base + legal_rank v (a0 + n) ≤ length vals)%nat →
  (base + legal_rank v (a0 + n) ≤ length pis)%nat →
  ∃ r, lookahead_moves v cns pis vals (seq a0 n) (base + legal_rank v a0) = Ok r.
Proof.
  induction n as [|n IH]; intros a0 Hlen Hc Hv Hp; simpl; [by eexists|].
  unfold index.
  destruct (v !! a0) as [b|] eqn:Hb; [|apply lookup_ge_None in Hb; lia].
  replace (a0 + S n)%nat with (S a0 + n)%nat in * by lia.
  pose proof (legal_rank_mono v (S a0) (S a0 + n)) as Hm.
  simpl. destruct b.
  - rewrite (legal_rank_S_true _ _ Hb) in Hm.
    destruct (lookup_lt_is_Some_2 cns (base + legal_rank v a0)) as [child ->]; [lia|].
    destruct (lookup_lt_is_Some_2 vals (base + legal_rank v a0)) as [x ->]; [lia|].
    destruct (lookup_lt_is_Some_2 pis (base + legal_rank v a0)) as [p ->]; [lia|].
    simpl.
    replace (S (base + legal_rank v a0)) with (base + legal_rank v (S a0))%nat
      by (rewrite (legal_rank_S_true _ _ Hb); lia).
    destruct (IH (S a0)) as [[[Qs' cpis'] idx''] ->]; [lia|done..|]. simpl. by eexists.
  - replace (base + legal_rank v a0)%nat with (base + legal_rank v (S a0))%nat
      by (by rewrite (legal_rank_S_false _ _ Hb)).
    destruct (IH (S a0)) as [[[Qs' cpis'] idx''] ->]; [lia|done..|]. simpl. by eexists.
Qed.

Lemma lookahead_moves_no_diverge v cns pis vals : ∀ moves idx,
  lookahead_moves v cns pis vals moves idx ≠ Diverge.
Proof.
  induction moves as [|a moves IH]; intros idx; simpl; [done|].
  unfold index. destruct (v !! a) as [[]|]; simpl; [| |done].
  - destruct (cns !! idx); simpl; [|done]. destruct (vals !! idx); simpl; [|done].
    destruct (pis !! idx); simpl; [|done].
    specialize (IH (S idx)).
    destruct (lookahead_moves v cns pis vals moves (S idx)) as [[[? ?] ?]| |]; done.
  - specialize (IH idx).
    destruct (lookahead_moves v cns pis vals moves idx) as [[[? ?] ?]| |]; done.
Qed.

Implicit Types (states : list State).

Lemma all_children_states_app states1 states2 :
  all_children_states (states1 ++ states2)
  = all_children_states states1 ++ all_children_states states2.
Proof. unfold all_children_states. by rewrite fmap_app, concat_app. Qed.

Lemma all_children_states_snoc states st :
  length (all_children_states (states ++ [st]))
  = (length (all_children_states states) + length (argwhere (get_valid_moves st)))%nat.
Proof.
  rewrite all_children_states_app, length_app. unfold all_children_states at 2.
  simpl. rewrite app_nil_r. unfold children_states. by rewrite length_fmap.
Qed.

Lemma all_children_states_lookup states b st a :
  states !! b = Some st →
  get_valid_moves st !! a = Some true →
  all_children_states states !! (batch_offset states b + legal_rank (get_valid_moves st) a)%nat
  = Some (canonical_next st a).
Proof.
  intros Hb Ha. unfold batch_offset.
  assert (Hsplit : all_children_states states
                   = all_children_states (take b states)
                     ++ children_states st ++ all_children_states (drop (S b) states)).
  { transitivity (all_children_states (take b states ++ st :: drop (S b) states)).
    - by rewrite take_drop_middle.
    - by rewrite all_children_states_app. }
  rewrite Hsplit at 1. rewrite lookup_app_r by lia.
  replace (length (all_children_states (take b states))
           + legal_rank (get_valid_moves st) a
           - length (all_children_states (take b states)))%nat
    with (legal_rank (get_valid_moves st) a) by lia.
  rewrite lookup_app_l.
  - unfold children_states. rewrite list_lookup_fmap.
    by rewrite (argwhere_lookup_rank _ _ Ha).
  - unfold children_states. rewrite length_fmap.
    eapply lookup_lt_Some. by apply argwhere_lookup_rank.
Qed.

Lemma lookahead_states_inv cns pis vals : ∀ rest pre batch_pis batch_qvals idx',
  (∀ st, st ∈ rest → length (get_valid_moves st) = get_action_size st) →
  lookahead_states cns pis vals rest (length (all_children_states pre))
  = Ok (batch_pis, batch_qvals, idx') →
  idx' = length (all_children_states (pre ++ rest)) ∧
  length batch_qvals = length rest ∧
  ∀ b st, rest !! b = Some st →
    ∃ Qs, batch_qvals !! b = Some Qs ∧ length Qs = get_action_size st ∧
      ∀ a,
        (get_valid_moves st !! a = Some false → Qs !! a = Some 0) ∧
        (get_valid_moves st !! a = Some true →
           ∃ child x,
             cns !! (length (all_children_states (pre ++ take b rest))
                     + legal_rank (get_valid_moves st) a)%nat = Some child ∧
             vals !! (length (all_children_states (pre ++ take b rest))
                      + legal_rank (get_valid_moves st) a)%nat = Some x ∧
             Qs !! a = Some (- (if get_game_ended child
                                then canonical_winning child else x))).
Proof.
  induction rest as [|st rest IH]; intros pre batch_pis batch_qvals idx' Hcontract Hrun.
  - simpl in Hrun. injection Hrun as <- <- <-. rewrite app_nil_r.
    repeat split. intros b st Hb. by rewrite lookup_nil in Hb.
  - simpl in Hrun.
    assert (Hst : length (get_valid_moves st) = get_action_size st)
      by (apply Hcontract; left).
    replace (length (all_children_states pre))
      with (length (all_children_states pre) + legal_rank (get_valid_moves st) 0)%nat
      in Hrun by (unfold legal_rank; simpl; lia).
    destruct (lookahead_moves (get_valid_moves st) cns pis vals
                (seq 0 (get_action_size st))
                (length (all_children_states pre) + legal_rank (get_valid_moves st) 0))
      as [[[Qs cpis] idx1]| |] eqn:Hmoves; simpl in Hrun; try done.
    apply lookahead_moves_inv in Hmoves as (-> & HQ & _ & Hk); [|lia].
    rewrite Nat.add_0_l, <- Hst, legal_rank_all, <- all_children_states_snoc in Hrun.
    destruct (lookahead_states cns pis vals rest
                (length (all_children_states (pre ++ [st]))))
      as [[[bp bq] idx2]| |] eqn:Hrest; simpl in Hrun; try done.
    injection Hrun as <- <- <-.
    apply IH in Hrest as (-> & Hbq & Hb); [|intros st' ?; apply Hcontract; by right].
    rewrite <- app_assoc. simpl. split; [done|]. split; [simpl; lia|].
    intros [|b] st' Hst'; simpl in Hst'.
    + injection Hst' as <-. exists Qs. split; [done|]. split; [done|].
      intros a. rewrite app_nil_r.
      destruct (decide (a < get_action_size st)%nat) as [Ha|Ha].
      * apply (Hk a Ha).
      * split; intros Hv%lookup_lt_Some; lia.
    + destruct (Hb b st' Hst') as (Qs' & ? & ? & Ha). exists Qs'.
      split; [done|]. split; [done|]. intros a.
      rewrite <- app_assoc in Ha. apply Ha.
Qed.

Lemma lookahead_states_ok cns pis vals : ∀ rest pre,
  (∀ st, st ∈ rest → length (get_valid_moves st) = get_action_size st) →
  (length (all_children_states (pre ++ rest)) ≤ length cns)%nat →
  (length (all_children_states (pre ++ rest)) ≤ length vals)%nat →
  (length (all_children_states (pre ++ rest)) ≤ length pis)%nat →
  ∃ r, lookahead_states cns pis vals rest (length (all_children_states pre)) = Ok r.
Proof.
  induction rest as [|st rest IH]; intros pre Hcontract Hc Hv Hp; simpl; [by eexists|].
  assert (Hst : length (get_valid_moves st) = get_action_size st)
    by (apply Hcontract; left).
  assert (Hle : (length (all_children_states (pre ++ [st]))
                 ≤ length (all_children_states (pre ++ st :: rest)))%nat).
  { replace (pre ++ st :: rest) with ((pre ++ [st]) ++ rest) by (by rewrite <- app_assoc).
    rewrite (all_children_states_app (pre ++ [st])), length_app. lia. }
  pose proof (all_children_states_snoc pre st) as Hsnoc.
  destruct (lookahead_moves_ok (get_valid_moves st) cns pis vals
              (length (all_children_states pre)) (get_action_size st) 0)
    as [[[Qs cpis] idx1] Hmoves];
    [lia|rewrite Nat.add_0_l, <- Hst, legal_rank_all; lia..|].
  pose proof Hmoves as Hmoves'.
  apply lookahead_moves_inv in Hmoves' as (-> & _); [|lia].
  replace (length (all_children_states pre) + legal_rank (get_valid_moves st) 0)%nat
    with (length (all_children_states pre)) in Hmoves
    by (unfold legal_rank; simpl; lia).
  rewrite Hmoves. simpl.
  rewrite <- Hst, legal_rank_all, <- Hsnoc.
  destruct (IH (pre ++ [st])) as [[[bp bq] idx2] ->];
    [intros st' ?; apply Hcontract; by right|rewrite <- app_assoc; done..|].
  simpl. by eexists.
Qed.

Lemma lookahead_states_no_diverge cns pis vals : ∀ states idx,
  lookahead_states cns pis vals states idx ≠ Diverge.
Proof.
  induction states as [|st states IH]; intros idx; simpl; [done|].
  pose proof (lookahead_moves_no_diverge (get_valid_moves st) cns pis vals
                (seq 0 (get_action_size st)) idx) as Hm.
  destruct (lookahead_moves _ _ _ _ _ _) as [[[Qs cpis] idx1]| |]; simpl; [|done|done].
  specialize (IH idx1).
  destruct (lookahead_states _ _ _ _ _) as [[[? ?] ?]| |]; done.
Qed.

Implicit Types (h : heap State) (node : Node State).

Lemma canonical_winning_cases (s : State) :
  ((snd (get_areas s) < fst (get_areas s))%nat → canonical_winning s = 1) ∧
  ((fst (get_areas s) < snd (get_areas s))%nat → canonical_winning s = -1) ∧
  (fst (get_areas s) = snd (get_areas s) → canonical_winning s = 0).
Proof.
  unfold canonical_winning. destruct (get_areas s) as [my opp]. simpl.
  destruct (Nat.ltb_spec opp my), (Nat.ltb_spec my opp); repeat split; intros; try lia; done.
Qed.

Lemma get_immediate_lookahead_unfold states h :
  get_immediate_lookahead forward_func states h
  = ([all_children_states states],
     r ← (let '(pis, vals) := forward_func (all_children_states states) in
          '(batch_pis, batch_qvals, curr_idx) ←
            lookahead_states (all_children_states states) pis vals states 0;
          _ ← py_assert (curr_idx =? length vals)%nat;
          _ ← py_assert (curr_idx =? length pis)%nat;
          Ok (batch_pis, batch_qvals, all_children_states states));
     Ok (r, h)).
Proof.
  unfold get_immediate_lookahead, mbind at 1, M_bind, bind_M, call_forward.
  destruct (forward_func (all_children_states states)) as [pis vals]. reflexivity.
Qed.

(** C8: for a batch of states whose legal-move vectors have the length of
    the action space, and an evaluator that answers with one prior vector
    and one value per requested successor, [get_immediate_lookahead] calls
    the evaluator exactly once, on the canonical successors of the legal
    moves of the batch states concatenated in order (the successor of legal
    move [a] of state [b] stands at the offset of [b] plus the rank of [a]
    among the legal moves of [b]).  In the q-values returned for a state,
    an illegal move has 0; a legal move has the negation of the evaluator's
    value for its successor, that value being replaced, when the successor
    ends the game, by the area comparison ([+1] if the first area of the
    canonical successor is greater, [-1] if less, [0] if equal). *)
Theorem get_immediate_lookahead_qvals states h pis vals :
  (∀ st, st ∈ states → length (get_valid_moves st) = get_action_size st) →
  forward_func (all_children_states states) = (pis, vals) →
  length pis = length (all_children_states states) →
  length vals = length (all_children_states states) →
  ∃ batch_pis batch_qvals,
    get_immediate_lookahead forward_func states h
    = ([all_children_states states],
       Ok (batch_pis, batch_qvals, all_children_states states, h)) ∧
    length batch_qvals = length states ∧
    ∀ b st, states !! b = Some st →
      ∃ Qs, batch_qvals !! b = Some Qs ∧ length Qs = get_action_size st ∧
        ∀ a,
          (get_valid_moves st !! a = Some false → Qs !! a = Some 0) ∧
          (get_valid_moves st !! a = Some true →
             let j := (batch_offset states b + legal_rank (get_valid_moves st) a)%nat in
             let next_state := get_next_state st a in
             let child := get_canonical_form next_state (get_turn next_state) in
             all_children_states states !! j = Some child ∧
             ∃ x, vals !! j = Some x ∧
               Qs !! a = Some (- (if get_game_ended child
                                  then canonical_winning child else x)) ∧
               ((snd (get_areas child) < fst (get_areas child))%nat
                → canonical_winning child = 1) ∧
               ((fst (get_areas child) < snd (get_areas child))%nat
                → canonical_winning child = -1) ∧
               (fst (get_areas child) = snd (get_areas child)
                → canonical_winning child = 0)).
Proof.
  intros Hcontract Hfwd Hpis Hvals.
  destruct (lookahead_states_ok (all_children_states states) pis vals states [])
    as [[[batch_pis batch_qvals] idx] Hrun]; [done|simpl; lia..|].
  simpl in Hrun. pose proof Hrun as Hinv.
  apply (lookahead_states_inv _ _ _ _ []) in Hinv as (-> & Hlen & Hb); [|done].
  exists batch_pis, batch_qvals. split; [|split; [done|]].
  - rewrite get_immediate_lookahead_unfold, Hfwd, Hrun. simpl.
    rewrite Hvals, Hpis, Nat.eqb_refl. done.
  - intros b st Hst. destruct (Hb b st Hst) as (Qs & HQs & HlenQ & Ha).
    exists Qs. split; [done|]. split; [done|]. intros a.
    destruct (Ha a) as [Hfalse Htrue]. split; [done|]. intros Hv j next_state child.
    destruct (Htrue Hv) as (child' & x & Hc & Hx & HQ). simpl in Hc, Hx.
    pose proof (all_children_states_lookup states b st a Hst Hv) as Hlook.
    fold j in Hlook. unfold batch_offset in j. fold j in Hc, Hx.
    rewrite Hlook in Hc. injection Hc as <-.
    split; [done|]. exists x. split; [done|]. split; [done|].
    apply canonical_winning_cases.
Qed.

Lemma get_immediate_lookahead_no_diverge states h calls :
  get_immediate_lookahead forward_func states h ≠ (calls, Diverge).
Proof.
  rewrite get_immediate_lookahead_unfold.
  destruct (forward_func (all_children_states states)) as [pis vals].
  pose proof (lookahead_states_no_diverge (all_children_states states) pis vals states 0).
  destruct (lookahead_states _ _ _ _ _) as [[[? ?] idx]| |]; simpl; [|done..].
  destruct (idx =? length vals)%nat, (idx =? length pis)%nat; simpl; congruence.
Qed.

Lemma get_immediate_lookahead_heap states h calls r h' :
  get_immediate_lookahead forward_func states h = (calls, Ok (r, h')) → h' = h.
Proof.
  rewrite get_immediate_lookahead_unfold.
  destruct (forward_func (all_children_states states)) as [pis vals].
  destruct (lookahead_states _ _ _ _ _) as [[[? ?] idx]| |]; simpl; [|done..].
  destruct (idx =? length vals)%nat, (idx =? length pis)%nat; simpl; congruence.
Qed.

(** C9: when the evaluator returns a number of priors or of values that
    differs from the number of successors requested, the one call of
    [get_immediate_lookahead] raises (the evaluator has been called once,
    no result is returned); and [select_best_child] raises on a node whose
    state has no legal move. *)
Theorem mismatch_and_no_move_fatal :
  (∀ states h pis vals,
     (∀ st, st ∈ states → length (get_valid_moves st) = get_action_size st) →
     forward_func (all_children_states states) = (pis, vals) →
     length pis ≠ length (all_children_states states) ∨
     length vals ≠ length (all_children_states states) →
     ∃ e, get_immediate_lookahead forward_func states h
          = ([all_children_states states], Raise e)) ∧
  (∀ i h node u_const,
     h !! i = Some node →
     argwhere (get_valid_moves (state node)) = [] →
     ∃ calls e, select_best_child forward_func i u_const h = (calls, Raise e)).
Proof.
  split.
  - intros states h pis vals Hcontract Hfwd Hmis.
    rewrite get_immediate_lookahead_unfold, Hfwd.
    pose proof (lookahead_states_no_diverge (all_children_states states) pis vals states 0).
    destruct (lookahead_states _ _ _ _ _) as [[[bp bq] idx]| |] eqn:Hrun;
      simpl; [|by eexists|done].
    apply (lookahead_states_inv _ _ _ _ []) in Hrun as (-> & _); [|done]. simpl.
    destruct (Nat.eqb_spec (length (all_children_states states)) (length vals)) as [Hv|Hv];
      simpl; [|by eexists].
    destruct (Nat.eqb_spec (length (all_children_states states)) (length pis)) as [Hp|Hp];
      simpl; [|by eexists].
    destruct Hmis; congruence.
  - intros i h node u_const Hi Hnone.
    unfold select_best_child, mbind, M_bind, bind_M, get_node.
    rewrite (deref_Some _ _ _ Hi). simpl.
    assert (Hcache : ∃ calls r,
               (if cached_children node then mret tt else cache_children forward_func i) h
               = (calls, r) ∧ (r = Ok (tt, h) ∨ ∃ e, r = Raise e)).
    { destruct (cached_children node); [by eexists _, _; split; [|left]|].
      unfold cache_children, mbind, M_bind, bind_M, get_node.
      rewrite (deref_Some _ _ _ Hi). simpl.
      destruct (terminal node); [by eexists _, _; split; [|left]|].
      rewrite Hnone.
      destruct (get_immediate_lookahead forward_func [state node] h)
        as [calls [[[[bp bq] bc] h']| |]] eqn:Hla.
      - apply get_immediate_lookahead_heap in Hla as ->. simpl.
        eexists _, _. split; [done|]. by left.
      - eexists _, _. split; [done|]. right. by eexists.
      - by apply get_immediate_lookahead_no_diverge in Hla. }
    destruct Hcache as (calls & r & -> & [->|[e ->]]); [|by eexists _, _].
    rewrite (deref_Some _ _ _ Hi). simpl. unfold read_M. rewrite Hnone. simpl.
    by eexists _, _.
Qed.
End LookaheadProperties.

Lemma get_immediate_lookahead_qvals_witness :
  ∃ batch_pis batch_qvals,
    get_immediate_lookahead toy_forward [Toy [] false] toy_heap
    = ([[Toy [0%nat] true; Toy [1%nat] true]],
       Ok (batch_pis, batch_qvals, [Toy [0%nat] true; Toy [1%nat] true], toy_heap)).
Proof.
  destruct (get_immediate_lookahead_qvals toy_forward [Toy [] false] toy_heap
              [[1 / 2; 1 / 2]; [1 / 2; 1 / 2]] [0; 0])
    as (batch_pis & batch_qvals & H & _).
  - intros st Hst. apply list_elem_of_singleton in Hst as ->. reflexivity.
  - reflexivity.
  - reflexivity.
  - reflexivity.
  - by exists batch_pis, batch_qvals.
Defined.

Lemma mismatch_and_no_move_fatal_witness :
  (∃ e, get_immediate_lookahead silent_forward [Toy [] false] toy_heap
        = ([[Toy [0%nat] true; Toy [1%nat] true]], Raise e)) ∧
  (∃ calls e, select_best_child stuck_forward 0 1 stuck_heap = (calls, Raise e)).
Proof.
  split.
  - destruct (proj1 (mismatch_and_no_move_fatal silent_forward)
                [Toy [] false] toy_heap [] []) as [e He].
    + intros st Hst. apply list_elem_of_singleton in Hst as ->. reflexivity.
    + reflexivity.
    + left. simpl. lia.
    + exists e. exact He.
  - apply (proj2 (mismatch_and_no_move_fatal stuck_forward) 0%nat stuck_heap
             (mkNode None 0 [None; None] [1 / 2; 1 / 2] tt 0 false 1 0 0) 1).
    + reflexivity.
    + reflexivity.
Defined.

Section TreeProperties.

Context {State : Type} {G : GoGame State}.
Variable forward_func : list State → list (list R) * list R.
Implicit Types (h : heap State) (node : Node State) (t : MCTree).

Lemma visit_counts_slot_counts h cs Ns :
  visit_counts h cs = Ok Ns → Ns = slot_counts h cs.
Proof.
  revert Ns. induction cs as [|slot cs IH]; intros Ns; simpl.
  - by intros [= <-].
  - destruct slot as [c|]; simpl.
    + unfold deref. destruct (h !! c) as [n|]; simpl; [|done].
      destruct (visit_counts h cs) as [rest| |]; simpl; [|done..].
      intros [= <-]. f_equal. by apply IH.
    + destruct (visit_counts h cs) as [rest| |]; simpl; [|done..].
      intros [= <-]. f_equal. by apply IH.
Qed.

Lemma l1_norm_nonneg (x : list R) :
  (∀ v, v ∈ x → 0 <= v) → l1_norm x = sum_R x.
Proof.
  unfold l1_norm, sum_R. induction x as [|v x IH]; intros Hpos; simpl; [done|].
  rewrite Rabs_pos_eq by (apply Hpos; left). f_equal. apply IH.
  intros w Hw. apply Hpos. by right.
Qed.

Lemma np_power_nonneg n e : 0 <= np_power n e.
Proof.
  destruct n; simpl; [lra|]. unfold Rpower. left. apply exp_pos.
Qed.

Lemma normalize_l1_nonneg (x : list R) :
  x ≠ [] → (∀ v, v ∈ x → 0 <= v) →
  normalize_l1 x
  = Ok ((fun v => v / (if Req_dec_T (sum_R x) 0 then 1 else sum_R x)) <$> x).
Proof.
  intros Hne Hpos. unfold normalize_l1. destruct x as [|v x]; [done|].
  by rewrite (l1_norm_nonneg _ Hpos).
Qed.

Lemma sum_R_zero_all (x : list R) :
  (∀ v, v ∈ x → 0 <= v) → sum_R x = 0 → ∀ v, v ∈ x → v = 0.
Proof.
  unfold sum_R. induction x as [|w x IH]; intros Hpos Hsum v Hv; simpl in *.
  - by apply elem_of_nil in Hv.
  - assert (0 <= w) by (apply Hpos; left).
    assert (0 <= fold_right Rplus 0 x).
    { clear -Hpos. induction x as [|u x IH]; simpl; [lra|].
      assert (0 <= u) by (apply Hpos; right; left).
      assert (0 <= fold_right Rplus 0 x); [|lra].
      apply IH. intros v [->|Hv]%elem_of_cons; apply Hpos; [left|right; by right]. }
    apply elem_of_cons in Hv as [->|Hv]; [lra|].
    apply IH; [|lra|done]. intros u Hu. apply Hpos. by right.
Qed.

Lemma sum_R_indicator (Ns : list nat) (m : nat) :
  sum_R (bool_R <$> ((fun n => n =? m)%nat <$> Ns))
  = INR (length (filter (fun n => n = m) Ns)).
Proof.
  unfold sum_R. induction Ns as [|n Ns IH]; [done|].
  rewrite !fmap_cons. cbn [fold_right]. rewrite IH, filter_cons.
  destruct (Nat.eqb_spec n m) as [->|Hne].
  - rewrite decide_True by done. simpl length. rewrite S_INR. simpl. lra.
  - rewrite decide_False by done. simpl. lra.
Qed.

Lemma argmax_count_pos (Ns : list nat) : Ns ≠ [] → (0 < argmax_count Ns)%nat.
Proof.
  intros Hne. unfold argmax_count.
  pose proof (max_list_elem_of Ns Hne) as Hin.
  assert (max_list Ns ∈ filter (fun n => n = max_list Ns) Ns) as Hf
      by (by apply list_elem_of_filter).
  destruct (filter _ Ns); [by apply elem_of_nil in Hf|simpl; lia].
Qed.

Lemma overflows_false (x : list R) :
  overflows x = false ↔ ∀ v, v ∈ x → v < float_overflow.
Proof.
  unfold overflows. induction x as [|a x IH]; simpl.
  - split; [intros _ v Hv; by apply elem_of_nil in Hv|done].
  - rewrite orb_false_iff, IH. split.
    + intros [Ha Hx] v [Hv|Hv]%elem_of_cons; [|by apply Hx]. subst v.
      destruct (Rge_dec a float_overflow); [done|lra].
    + intros Hall. split.
      * destruct (Rge_dec a float_overflow) as [Hge|]; [|done].
        specialize (Hall a (list_elem_of_here _ _)). lra.
      * intros v Hv. apply Hall. by apply list_elem_of_further.
Qed.

Lemma float_overflow_large : 512 <= float_overflow.
Proof.
  unfold float_overflow.
  assert (H9 : 2 ^ 9 <= 2 ^ 970) by (apply Rle_pow; [lra|lia]).
  assert (H1 : 2 ^ 1 <= 2 ^ 54) by (apply Rle_pow; [lra|lia]).
  assert (E9 : 2 ^ 9 = 512) by (simpl; lra).
  assert (E1 : 2 ^ 1 = 2) by (simpl; lra).
  rewrite E9 in H9. rewrite E1 in H1.
  generalize dependent (2 ^ 970). generalize dependent (2 ^ 54). intros a Ha b Hb. nra.
Qed.

Lemma compute_pi_no_overflow (Ns : list nat) temp pi :
  0 < temp → compute_pi Ns temp = Ok pi →
  overflows ((fun n => np_power n (1 / temp)) <$> Ns) = false.
Proof.
  intros Ht Hpi. unfold compute_pi in Hpi.
  destruct (Rgt_dec temp 0) as [_|Hn]; [|lra].
  by destruct (overflows _).
Qed.

Lemma compute_pi_finite (Ns : list nat) temp :
  0 < temp → overflows ((fun n => np_power n (1 / temp)) <$> Ns) = false →
  compute_pi Ns temp = normalize_l1 ((fun n => np_power n (1 / temp)) <$> Ns).
Proof.
  intros Ht Hfin. unfold compute_pi.
  destruct (Rgt_dec temp 0) as [_|Hn]; [|lra]. by rewrite Hfin.
Qed.

Lemma compute_pi_positive_returns (Ns : list nat) temp :
  0 < temp → Ns ≠ [] →
  (∀ n, n ∈ Ns → np_power n (1 / temp) < float_overflow) →
  ∃ pi, compute_pi Ns temp = Ok pi.
Proof.
  intros Ht Hne Hfin. rewrite compute_pi_finite; [|done|].
  - unfold normalize_l1. destruct Ns; [done|]. simpl. by eexists.
  - apply overflows_false. intros v (n & -> & Hn)%list_elem_of_fmap. by apply Hfin.
Qed.

Lemma compute_pi_positive_temp (Ns : list nat) temp pi :
  0 < temp → compute_pi Ns temp = Ok pi →
  let x := (fun n => np_power n (1 / temp)) <$> Ns in
  (sum_R x ≠ 0 → pi = (fun v => v / sum_R x) <$> x) ∧
  (sum_R x = 0 → pi = (fun _ => 0) <$> Ns).
Proof.
  intros Ht Hpi x.
  rewrite (compute_pi_finite Ns temp Ht (compute_pi_no_overflow Ns temp pi Ht Hpi)) in Hpi.
  fold x in Hpi.
  assert (Hpos : ∀ v, v ∈ x → 0 <= v).
  { intros v (n & -> & _)%list_elem_of_fmap. apply np_power_nonneg. }
  destruct (decide (x = [])) as [Hnil|Hne].
  { rewrite Hnil in Hpi. done. }
  rewrite (normalize_l1_nonneg _ Hne Hpos) in Hpi. injection Hpi as <-.
  destruct (Req_dec_T (sum_R x) 0) as [Hz|Hnz]; split; try done.
  intros _. unfold x at 1. rewrite <- list_fmap_compose.
  apply list_fmap_ext. intros i n Hn. simpl.
  rewrite (sum_R_zero_all x Hpos Hz (np_power n (1 / temp))); [lra|].
  apply list_elem_of_fmap. exists n. split; [done|]. apply list_elem_of_lookup. by exists i.
Qed.

Lemma compute_pi_zero_temp (Ns : list nat) pi :
  compute_pi Ns 0 = Ok pi →
  pi = (fun n => if decide (n = max_list Ns) then 1 / INR (argmax_count Ns) else 0) <$> Ns
  ∧ (0 < argmax_count Ns)%nat.
Proof.
  intros Hpi. unfold compute_pi in Hpi.
  destruct (Rgt_dec 0 0) as [Hn|_]; [lra|].
  destruct (decide (Ns = [])) as [->|Hne]; [done|].
  pose proof (argmax_count_pos Ns Hne) as Hcount. split; [|done].
  destruct Ns as [|n0 Ns0] eqn:HNs; [done|]. rewrite <- HNs in *.
  set (y := bool_R <$> ((fun n => n =? max_list Ns)%nat <$> Ns)) in *.
  assert (Hpos : ∀ v, v ∈ y → 0 <= v).
  { intros v (b & -> & _)%list_elem_of_fmap. destruct b; simpl; lra. }
  assert (Hy : y ≠ []). { unfold y. rewrite HNs. done. }
  rewrite (normalize_l1_nonneg _ Hy Hpos) in Hpi. injection Hpi as <-.
  pose proof (sum_R_indicator Ns (max_list Ns)) as Hsum.
  fold y in Hsum. fold (argmax_count Ns) in Hsum.
  assert (INR (argmax_count Ns) ≠ 0) as Hnz by (apply not_0_INR; lia).
  destruct (Req_dec_T (sum_R y) 0) as [Hz|_]; [by rewrite Hsum in Hz|].
  rewrite Hsum.
  unfold y. rewrite <- !list_fmap_compose. apply list_fmap_ext. intros i n _. simpl.
  destruct (Nat.eqb_spec n (max_list Ns)).
  - rewrite decide_True by done. done.
  - rewrite decide_False by done. simpl. lra.
Qed.

Lemma bind_M_Ok {A B : Type} (m : M State A) (f : A → M State B) h calls b h' :
  (m ≫= f) h = (calls, Ok (b, h')) →
  ∃ c1 a h1 c2, m h = (c1, Ok (a, h1)) ∧ f a h1 = (c2, Ok (b, h')) ∧ calls = c1 ++ c2.
Proof.
  unfold mbind, M_bind, bind_M. destruct (m h) as [c1 [[a h1]| |]]; [|done..].
  destruct (f a h1) as [c2 r] eqn:Hf. intros [= <- ->]. by exists c1, a, h1, c2.
Qed.

Lemma pure_M_Ok {A : Type} (m : outcome A) h calls a h' :
  pure_M m h = (calls, Ok (a, h')) → m = Ok a ∧ h' = h ∧ calls = [].
Proof. unfold pure_M. destruct m; simpl; [|done..]. by intros [= <- <- <-]. Qed.

Lemma read_M_Ok {A : Type} (f : heap State → outcome A) h calls a h' :
  read_M f h = (calls, Ok (a, h')) → f h = Ok a ∧ h' = h ∧ calls = [].
Proof. unfold read_M. destruct (f h); simpl; [|done..]. by intros [= <- <- <-]. Qed.

Lemma get_node_Ok i h calls n h' :
  get_node i h = (calls, Ok (n, h')) → h !! i = Some n ∧ h' = h ∧ calls = [].
Proof.
  unfold get_node, deref. destruct (h !! i); simpl; [|done]. by intros [= <- <- <-].
Qed.

Lemma search_loop_counter fuel t : ∀ todo n h calls n' h',
  search_loop forward_func fuel t todo n h = (calls, Ok (n', h')) → n' = (n + todo)%nat.
Proof.
  induction todo as [|todo IH]; intros n h calls n' h' Hrun; simpl in Hrun.
  - injection Hrun as <- <- <-. lia.
  - apply bind_M_Ok in Hrun as (c1 & [] & h1 & c2 & _ & Hrest & _).
    apply IH in Hrest. lia.
Qed.

Lemma get_action_probs_inv fuel t max_num_searches temp h calls pi h' :
  get_action_probs forward_func fuel t max_num_searches temp h = (calls, Ok (pi, h')) →
  (0 < max_num_searches)%nat ∧
  search_loop forward_func fuel t max_num_searches 0 h = (calls, Ok (max_num_searches, h')) ∧
  ∃ rn, h' !! root t = Some rn ∧
        compute_pi (slot_counts h' (children rn)) temp = Ok pi.
Proof.
  unfold get_action_probs. intros Hrun.
  apply bind_M_Ok in Hrun as (c1 & [] & h1 & c2 & Has & Hrun & ->).
  apply pure_M_Ok in Has as (Has & -> & ->).
  apply bind_M_Ok in Hrun as (c3 & n & h2 & c4 & Hloop & Hrun & ->).
  apply bind_M_Ok in Hrun as (c5 & rn & h3 & c6 & Hget & Hrun & ->).
  apply get_node_Ok in Hget as (Hrn & -> & ->).
  apply bind_M_Ok in Hrun as (c7 & Ns & h4 & c8 & Hread & Hrun & ->).
  apply read_M_Ok in Hread as (HNs & -> & ->).
  apply bind_M_Ok in Hrun as (c9 & pi' & h5 & c10 & Hpi & Hret & ->).
  apply pure_M_Ok in Hpi as (Hpi & -> & ->).
  injection Hret as <- <- <-.
  pose proof (search_loop_counter _ _ _ _ _ _ _ _ Hloop) as ->. simpl in *.
  rewrite !app_nil_r.
  split. { unfold py_assert in Has. destruct (Nat.ltb_spec 0 max_num_searches); done. }
  split; [done|]. exists rn. split; [done|].
  by rewrite <- (visit_counts_slot_counts _ _ _ HNs).
Qed.

Lemma get_action_probs_run fuel t max_num_searches temp h calls n h' rn Ns pi :
  (0 < max_num_searches)%nat →
  search_loop forward_func fuel t max_num_searches 0 h = (calls, Ok (n, h')) →
  h' !! root t = Some rn →
  visit_counts h' (children rn) = Ok Ns →
  compute_pi Ns temp = Ok pi →
  get_action_probs forward_func fuel t max_num_searches temp h = (calls, Ok (pi, h')).
Proof.
  intros Hmax Hloop Hrn HNs Hpi.
  unfold get_action_probs, mbind, M_bind, bind_M, pure_M, py_assert.
  destruct (Nat.ltb_spec 0 max_num_searches); [|lia]. simpl.
  rewrite Hloop. simpl. unfold get_node. rewrite (deref_Some _ _ _ Hrn). simpl.
  unfold read_M. rewrite HNs. simpl. rewrite Hpi. simpl. by rewrite !app_nil_r.
Qed.

Lemma compute_pi_length Ns temp pi : compute_pi Ns temp = Ok pi → length pi = length Ns.
Proof.
  unfold compute_pi, normalize_l1.
  destruct (Rgt_dec temp 0).
  - destruct (overflows _); [done|].
    destruct Ns; simpl; [done|]. intros [= <-]. simpl. by rewrite !length_fmap.
  - destruct Ns; simpl; [done|]. intros [= <-]. simpl. by rewrite !length_fmap.
Qed.

Lemma np_power_Rpower n e :
  np_power n e = if decide (n = 0%nat) then 0 else Rpower (INR n) e.
Proof. by destruct n. Qed.


(** A temperature so small that the power of some visit count overflows:
    the search runs, then [normalize] rejects the infinite entry. *)
Lemma get_action_probs_overflow fuel t max_num_searches temp h calls n h' rn Ns k :
  (0 < max_num_searches)%nat →
  search_loop forward_func fuel t max_num_searches 0 h = (calls, Ok (n, h')) →
  h' !! root t = Some rn →
  visit_counts h' (children rn) = Ok Ns →
  0 < temp → k ∈ Ns → float_overflow <= np_power k (1 / temp) →
  get_action_probs forward_func fuel t max_num_searches temp h = (calls, Raise ValueError).
Proof.
  intros Hmax Hloop Hrn HNs Ht Hk Hover.
  assert (Hpi : compute_pi Ns temp = Raise ValueError).
  { unfold compute_pi. destruct (Rgt_dec temp 0) as [_|Hn]; [|lra].
    destruct (overflows _) eqn:Hfin; [done|].
    pose proof (proj1 (overflows_false _) Hfin (np_power k (1 / temp))) as Hlt.
    assert (np_power k (1 / temp) < float_overflow); [|lra].
    apply Hlt. apply list_elem_of_fmap. by exists k. }
  unfold get_action_probs, mbind, M_bind, bind_M, pure_M, py_assert.
  destruct (Nat.ltb_spec 0 max_num_searches); [|lia]. simpl.
  rewrite Hloop. simpl. unfold get_node. rewrite (deref_Some _ _ _ Hrn). simpl.
  unfold read_M. rewrite HNs. simpl. rewrite Hpi. simpl. by rewrite !app_nil_r.
Qed.

Lemma simulate_terminal_root fuel t h rn :
  h !! root t = Some rn → terminal rn = true → parent rn = None → (0 < fuel)%nat →
  simulate forward_func fuel t h = ([], Ok (tt, <[root t := bump rn (V rn)]> h)).
Proof.
  intros Hrn Hterm Hpar Hfuel. destruct fuel as [|fuel]; [lia|].
  unfold simulate. simpl. unfold mbind, M_bind, bind_M, get_node.
  rewrite (deref_Some _ _ _ Hrn). simpl. rewrite Hterm, andb_false_r. simpl.
  rewrite (deref_Some _ _ _ Hrn). simpl.
  unfold back_propagate_M, heap_M. simpl.
  rewrite (deref_Some _ _ _ Hrn). simpl. by rewrite Hpar.
Qed.

Lemma search_loop_terminal_root fuel t : ∀ todo n h rn,
  h !! root t = Some rn → terminal rn = true → parent rn = None → (0 < fuel)%nat →
  ∃ rn', search_loop forward_func fuel t todo n h
         = ([], Ok ((n + todo)%nat, <[root t := rn']> h)) ∧
         terminal rn' = true ∧ parent rn' = None ∧ children rn' = children rn ∧
         N rn' = (N rn + todo)%nat.
Proof.
  induction todo as [|todo IH]; intros n h rn Hrn Hterm Hpar Hfuel; simpl.
  - exists rn. rewrite list_insert_id by done. rewrite Nat.add_0_r.
    by repeat split; try lia.
  - unfold mbind, M_bind, bind_M.
    rewrite (simulate_terminal_root fuel t h rn) by done.
    destruct (IH (S n) (<[root t := bump rn (V rn)]> h) (bump rn (V rn)))
      as (rn' & Hloop & Ht & Hp & Hc & HN); [|done..|].
    { apply list_lookup_insert_eq. by eapply lookup_lt_Some. }
    rewrite Hloop. simpl. rewrite list_insert_insert_eq.
    exists rn'. replace (n + S todo)%nat with (S (n + todo)) by lia.
    split; [done|]. simpl in HN. repeat split; [done..|lia].
Qed.

Lemma slot_counts_empty h k :
  slot_counts h (replicate k None) = replicate k 0%nat.
Proof. unfold slot_counts. by rewrite fmap_replicate. Qed.

Lemma visit_counts_empty h k :
  visit_counts h (replicate k None) = Ok (replicate k 0%nat).
Proof. induction k as [|k IH]; simpl; [done|]. by rewrite IH. Qed.

Lemma sum_R_replicate_zero k : sum_R (replicate k 0) = 0.
Proof. unfold sum_R. induction k; simpl; lra. Qed.

Lemma max_list_replicate_zero k : max_list (replicate k 0%nat) = 0%nat.
Proof. induction k as [|k IH]; simpl; [done|]. by rewrite IH. Qed.

Lemma compute_pi_zeros_positive k temp :
  (0 < k)%nat → 0 < temp → compute_pi (replicate k 0%nat) temp = Ok (replicate k 0).
Proof.
  intros Hk Ht.
  assert (Hfin : overflows ((fun n => np_power n (1 / temp)) <$> replicate k 0%nat) = false).
  { apply overflows_false. intros v (n & -> & Hn)%list_elem_of_fmap.
    apply elem_of_replicate in Hn as [-> _]. simpl.
    pose proof float_overflow_large. lra. }
  destruct (compute_pi (replicate k 0%nat) temp) as [pi| |] eqn:Hpi.
  - f_equal. destruct (compute_pi_positive_temp _ _ _ Ht Hpi) as [_ Hz].
    rewrite fmap_replicate in Hz. simpl in Hz.
    rewrite Hz by apply sum_R_replicate_zero. by rewrite fmap_replicate.
  - exfalso. rewrite (compute_pi_finite _ _ Ht Hfin) in Hpi. unfold normalize_l1 in Hpi.
    destruct k; [lia|done].
  - exfalso. rewrite (compute_pi_finite _ _ Ht Hfin) in Hpi. unfold normalize_l1 in Hpi.
    destruct k; [lia|done].
Qed.

Lemma argmax_count_replicate_zero k : argmax_count (replicate k 0%nat) = k.
Proof.
  unfold argmax_count. rewrite max_list_replicate_zero.
  induction k as [|k IH]; [done|]. cbn [replicate].
  rewrite filter_cons, decide_True by done. cbn [length]. by rewrite IH.
Qed.

Lemma compute_pi_zeros_zero k :
  (0 < k)%nat → compute_pi (replicate k 0%nat) 0 = Ok (replicate k (1 / INR k)).
Proof.
  intros Hk.
  destruct (compute_pi (replicate k 0%nat) 0) as [pi| |] eqn:Hpi.
  - f_equal. destruct (compute_pi_zero_temp _ _ Hpi) as [-> _].
    rewrite max_list_replicate_zero, argmax_count_replicate_zero, fmap_replicate.
    by rewrite decide_True.
  - exfalso. unfold compute_pi, normalize_l1 in Hpi.
    destruct (Rgt_dec 0 0); [lra|]. destruct k; [lia|done].
  - exfalso. unfold compute_pi, normalize_l1 in Hpi.
    destruct (Rgt_dec 0 0); [lra|]. destruct k; [lia|done].
Qed.

Lemma compute_pi_nonpositive (Ns : list nat) temp :
  ¬ temp > 0 → compute_pi Ns temp = compute_pi Ns 0.
Proof.
  intros Ht. unfold compute_pi.
  destruct (Rgt_dec temp 0); [done|]. destruct (Rgt_dec 0 0); [lra|done].
Qed.

Lemma get_action_probs_terminal_root fuel t max_num_searches temp h rn k pi :
  h !! root t = Some rn → terminal rn = true → parent rn = None →
  children rn = replicate k None →
  (0 < fuel)%nat → (0 < max_num_searches)%nat →
  compute_pi (replicate k 0%nat) temp = Ok pi →
  ∃ rn', get_action_probs forward_func fuel t max_num_searches temp h
         = ([], Ok (pi, <[root t := rn']> h)) ∧
         terminal rn' = true ∧ parent rn' = None ∧
         children rn' = replicate k None ∧
         N rn' = (N rn + max_num_searches)%nat.
Proof.
  intros Hrn Hterm Hpar Hch Hfuel Hmax Hpi.
  destruct (search_loop_terminal_root fuel t max_num_searches 0 h rn)
    as (rn' & Hloop & Ht & Hp & Hc & HN); [done..|].
  exists rn'. rewrite Hch in Hc. split; [|done].
  unfold get_action_probs, mbind, M_bind, bind_M, pure_M, py_assert.
  destruct (Nat.ltb_spec 0 max_num_searches); [|lia]. simpl.
  rewrite Hloop. simpl. unfold get_node.
  rewrite (deref_Some _ (root t) rn')
    by (apply list_lookup_insert_eq; by eapply lookup_lt_Some).
  simpl. unfold read_M. rewrite Hc, visit_counts_empty. simpl. by rewrite Hpi.
Qed.

(** C10: on a tree whose root is terminal, has no parent and has only
    empty child slots, [get_action_probs] returns for every
    [max_num_searches > 0] without calling the evaluator and without
    creating a node: the heap changes at the root only, whose slots stay
    empty and whose visit count grows by [max_num_searches]; the visit-count
    vector is all zeros.  For [temp > 0] the result is the all-zero vector,
    whose entries sum to 0; for [temp = 0] it is the uniform distribution
    over the [action_size] actions. *)
Theorem terminal_root_never_expands fuel t max_num_searches temp h rn :
  h !! root t = Some rn → terminal rn = true → parent rn = None →
  children rn = replicate (action_size t) None → (0 < action_size t)%nat →
  (0 < fuel)%nat → (0 < max_num_searches)%nat →
  ∃ pi rn',
    get_action_probs forward_func fuel t max_num_searches temp h
    = ([], Ok (pi, <[root t := rn']> h)) ∧
    children rn' = replicate (action_size t) None ∧
    N rn' = (N rn + max_num_searches)%nat ∧
    slot_counts (<[root t := rn']> h) (children rn') = replicate (action_size t) 0%nat ∧
    (0 < temp → pi = replicate (action_size t) 0 ∧ sum_R pi = 0) ∧
    (temp = 0 → pi = replicate (action_size t) (1 / INR (action_size t))).
Proof.
  intros Hrn Hterm Hpar Hch Hk Hfuel Hmax.
  destruct (Rgt_dec temp 0) as [Hpos|Hnpos].
  - destruct (get_action_probs_terminal_root fuel t max_num_searches temp h rn
                (action_size t) (replicate (action_size t) 0))
      as (rn' & Hrun & _ & _ & Hc & HN); [done..|by apply compute_pi_zeros_positive|].
    exists (replicate (action_size t) 0), rn'. split; [done|]. split; [done|].
    split; [done|]. split; [by rewrite Hc, slot_counts_empty|]. split.
    + intros _. split; [done|]. apply sum_R_replicate_zero.
    + intros ->. lra.
  - destruct (get_action_probs_terminal_root fuel t max_num_searches temp h rn
                (action_size t) (replicate (action_size t) (1 / INR (action_size t))))
      as (rn' & Hrun & _ & _ & Hc & HN); [done..| |].
    { rewrite compute_pi_nonpositive by done. by apply compute_pi_zeros_zero. }
    exists (replicate (action_size t) (1 / INR (action_size t))), rn'.
    split; [done|]. split; [done|]. split; [done|].
    split; [by rewrite Hc, slot_counts_empty|]. split; [intros ?; lra|done].
Qed.

Lemma ret_M_Ok {A : Type} (a : A) h calls b h' :
  (mret a : M State A) h = (calls, Ok (b, h')) → b = a ∧ h' = h ∧ calls = [].
Proof. by intros [= <- <- <-]. Qed.

Lemma heap_M_Ok {A : Type} (f : heap State → outcome (A * heap State)) h calls a h' :
  heap_M f h = (calls, Ok (a, h')) → f h = Ok (a, h') ∧ calls = [].
Proof. unfold heap_M. by intros [= -> <-]. Qed.

Lemma Node_init_root probs value s h i h' :
  Node_init None probs value (Board s) h = Ok (i, h') →
  i = length h ∧
  ∃ n, h' = h ++ [n] ∧ parent n = None ∧ state n = s ∧ N n = 0%nat ∧ V n = value.
Proof.
  unfold Node_init. simpl. destruct (shape s) as [[ch rows] cols].
  destruct (rows =? cols)%nat; simpl; [|done]. intros [= <- <-].
  split; [done|]. by eexists.
Qed.

Lemma back_propagate_root fuel i v h n h' :
  h !! i = Some n → parent n = None →
  back_propagate fuel i v h = Ok h' → h' = <[i := bump n v]> h.
Proof.
  intros Hi Hp. destruct fuel as [|fuel]; simpl; [done|].
  rewrite (deref_Some _ _ _ Hi). simpl. rewrite Hp. by intros [= <-].
Qed.

(** What [step] leaves at the new root. *)
Lemma step_new_root fuel t action h calls t' h' :
  step forward_func fuel t action h = (calls, Ok (t', h')) →
  ∃ rn slot n', h !! root t = Some rn ∧ children rn !! action = Some slot ∧
    h' !! root t' = Some n' ∧ parent n' = None ∧
    match slot with
    | Some c => root t' = c ∧ calls = [] ∧ ∃ cn, h !! c = Some cn ∧ state n' = state cn
    | None =>
        root t' = length h ∧
        calls = [[get_canonical_form (get_next_state (state rn) action)
                    (get_turn (get_next_state (state rn) action))]] ∧
        state n' = get_next_state (state rn) action
    end.
Proof.
  unfold step. intros Hrun.
  apply bind_M_Ok in Hrun as (c1 & rn & h1 & c2 & Hget & Hrun & ->).
  apply get_node_Ok in Hget as (Hrn & -> & ->).
  apply bind_M_Ok in Hrun as (c3 & slot & h2 & c4 & Hidx & Hrun & ->).
  apply pure_M_Ok in Hidx as (Hidx & -> & ->).
  unfold index in Hidx. destruct (children rn !! action) as [slot'|] eqn:Hslot; [|done].
  injection Hidx as ->.
  apply bind_M_Ok in Hrun as (c5 & child & h3 & c6 & Hchild & Hrun & ->).
  apply bind_M_Ok in Hrun as (c7 & cn & h4 & c8 & Hget & Hrun & ->).
  apply get_node_Ok in Hget as (Hcn & -> & ->).
  apply bind_M_Ok in Hrun as (c9 & [] & h5 & c10 & Hset & Hrun & ->).
  apply heap_M_Ok in Hset as ([= <-] & ->).
  apply bind_M_Ok in Hrun as (c11 & cn' & h6 & c12 & Hget & Hrun & ->).
  apply get_node_Ok in Hget as (Hcn' & -> & ->).
  rewrite list_lookup_insert_eq in Hcn' by (by eapply lookup_lt_Some).
  injection Hcn' as <-.
  apply bind_M_Ok in Hrun as (c13 & [] & h7 & c14 & Hbp & Hret & ->).
  injection Hret as <- <- <-. simpl.
  assert (Hfinal : ∃ n', h7 !! child = Some n' ∧ parent n' = None ∧ state n' = state cn
                         ∧ c13 = []).
  { simpl in Hbp. destruct (visited (set_parent cn None)).
    - apply ret_M_Ok in Hbp as (_ & -> & ->).
      exists (set_parent cn None). split; [|done].
      apply list_lookup_insert_eq. by eapply lookup_lt_Some.
    - apply heap_M_Ok in Hbp as (Hbp & ->).
      destruct (back_propagate fuel child (V cn) _) as [hb| |] eqn:Hb; [|done..].
      simpl in Hbp. injection Hbp as <-.
      eapply (back_propagate_root _ _ _ _ (set_parent cn None)) in Hb as ->;
        [|apply list_lookup_insert_eq; by eapply lookup_lt_Some|done].
      exists (bump (set_parent cn None) (V cn)). split; [|done].
      apply list_lookup_insert_eq. rewrite length_insert. by eapply lookup_lt_Some. }
  destruct Hfinal as (n' & Hn' & Hpar & Hst & ->).
  exists rn, slot, n'. split; [done|]. split; [done|]. split; [done|]. split; [done|].
  destruct slot as [c|].
  - apply ret_M_Ok in Hchild as (-> & -> & ->). split; [done|]. split; [done|].
    by exists cn.
  - apply bind_M_Ok in Hchild as (c15 & [pis vals] & h8 & c16 & Hcall & Hchild & ->).
    injection Hcall as <- _ <-.
    apply bind_M_Ok in Hchild as (c17 & probs & h9 & c18 & Hp & Hchild & ->).
    apply pure_M_Ok in Hp as (_ & -> & ->).
    apply bind_M_Ok in Hchild as (c19 & value & h10 & c20 & Hv & Hchild & ->).
    apply pure_M_Ok in Hv as (_ & -> & ->).
    apply heap_M_Ok in Hchild as (Hinit & ->).
    apply Node_init_root in Hinit as (-> & n0 & -> & _ & Hs0 & _).
    rewrite lookup_app_r, Nat.sub_diag in Hcn by done. injection Hcn as <-.
    split; [done|]. split; [done|]. by rewrite Hst.
Qed.

Lemma Node_init_plane parentaction probs value s idx h :
  ∃ e, Node_init parentaction probs value (Plane s idx) h = Raise e.
Proof.
  unfold Node_init. destruct parentaction as [[p a]|]; simpl; [|by eexists].
  unfold deref. destruct (h !! p) as [pn|]; simpl; [|by eexists].
  destruct (decide (a < length (children pn))%nat); simpl; by eexists.
Qed.

Lemma cache_loop_raises i batch_pis batch_qvals batch_canonical_children idx move moves h :
  ∃ e, cache_loop i batch_pis batch_qvals batch_canonical_children idx (move :: moves) h
       = ([], Raise e).
Proof.
  simpl. unfold mbind, M_bind, bind_M, pure_M, index.
  destruct (batch_pis !! 0%nat) as [pis0|]; simpl; [|by eexists].
  destruct (pis0 !! idx) as [probs|]; simpl; [|by eexists].
  destruct (batch_qvals !! 0%nat) as [qvals0|]; simpl; [|by eexists].
  destruct (qvals0 !! idx) as [value|]; simpl; [|by eexists].
  destruct (batch_canonical_children !! 0%nat) as [child0|]; simpl; [|by eexists].
  unfold slice. destruct (decide (idx < (shape child0).1.1)%nat); simpl; [|by eexists].
  unfold heap_M.
  destruct (Node_init_plane (Some (i, move)) probs value child0 idx h) as [e ->].
  by eexists.
Qed.

(** [cache_children] never completes on a node that has a legal move and
    is not terminal: the state passed to the first new node is a two
    dimensional slice. *)
Lemma cache_children_raises i h node :
  h !! i = Some node → terminal node = false →
  argwhere (get_valid_moves (state node)) ≠ [] →
  ∃ calls e, cache_children forward_func i h = (calls, Raise e).
Proof.
  intros Hi Hterm Hmoves.
  unfold cache_children, mbind, M_bind, bind_M, get_node.
  rewrite (deref_Some _ _ _ Hi). simpl. rewrite Hterm.
  destruct (get_immediate_lookahead forward_func [state node] h)
    as [calls [[[[bp bq] bc] h']| |]] eqn:Hla.
  - destruct (argwhere (get_valid_moves (state node))) as [|move moves]; [done|].
    destruct (cache_loop_raises i bp bq bc 0 move moves h') as [e ->]. by eexists _, _.
  - by eexists _, _.
  - by apply get_immediate_lookahead_no_diverge in Hla.
Qed.

(** Hence a search from a visited, non-terminal root without cached
    children raises during its first simulation. *)
Lemma get_action_probs_uncached_root_raises fuel t max_num_searches temp h rn :
  h !! root t = Some rn → visited rn = true → terminal rn = false →
  cached_children rn = false →
  argwhere (get_valid_moves (state rn)) ≠ [] →
  (0 < fuel)%nat → (0 < max_num_searches)%nat →
  ∃ calls e,
    get_action_probs forward_func fuel t max_num_searches temp h = (calls, Raise e).
Proof.
  intros Hrn Hvis Hterm Hcached Hmoves Hfuel Hmax.
  destruct fuel as [|fuel]; [lia|]. destruct max_num_searches as [|m]; [lia|].
  destruct (cache_children_raises (root t) h rn Hrn Hterm Hmoves) as (calls & e & Hcache).
  exists calls, e.
  unfold get_action_probs. simpl. unfold simulate. simpl.
  unfold mbind, M_bind, bind_M, pure_M, get_node. simpl.
  rewrite (deref_Some _ _ _ Hrn). simpl. rewrite Hvis, Hterm. simpl.
  unfold select_best_child, mbind, M_bind, bind_M, get_node.
  rewrite (deref_Some _ _ _ Hrn). simpl. rewrite Hcached, Hcache. done.
Qed.
End TreeProperties.

(** ** The search on the example game *)

Example MCTree_init_empty_board :
  MCTree_init toy_forward 1 (Toy [] false) []
  = ([[Toy [] false]], Ok (fresh_tree, fresh_heap)).
Proof. reflexivity. Qed.

Example MCTree_init_finished_game :
  MCTree_init toy_forward 1 (Toy [1; 1]%nat false) []
  = ([[Toy [1; 1]%nat false]], Ok (ended_tree, ended_heap)).
Proof. reflexivity. Qed.

Lemma toy_select :
  select_best_child toy_forward 0 1 toy_heap = ([], Ok (Some 2%nat, 1%nat, toy_heap)).
Proof.
  unfold select_best_child, mbind, M_bind, bind_M, get_node. simpl.
  unfold read_M. simpl.
  unfold UCB, avg_Q, child_at, index. simpl.
  unfold mbind, outcome_bind. simpl.
  destruct (Rgt_dec _ _) as [?|Hn]; [done|].
  exfalso. apply Hn. lra.
Qed.

Lemma toy_search :
  ∃ h', search_loop toy_forward 2 toy_tree 1 0 toy_heap = ([], Ok (1%nat, h')) ∧
        visit_counts h' [Some 1; Some 2]%nat = Ok [0; 1]%nat ∧
        h' !! 0%nat = Some (toy_node None 0 [Some 1; Some 2]%nat (Toy [] false) 2 0 (0 + - 0)).
Proof.
  eexists. split.
  - pose proof toy_select as Hsel.
    cbn [search_loop]. unfold simulate. cbn [descend].
    set (sel := select_best_child toy_forward 0 1) in *.
    unfold mbind, M_bind, bind_M. simpl. subst sel. rewrite toy_select. reflexivity.
  - split; reflexivity.
Qed.

Lemma toy_pi : compute_pi [0; 1]%nat 1 = Ok [0; 1].
Proof.
  assert (Hp : Rpower 1 (1 / 1) = 1).
  { replace (1 / 1) with 1 by lra. apply Rpower_1. lra. }
  destruct (compute_pi_positive_returns [0; 1]%nat 1 Rlt_0_1) as [pi Hpi]; [done| |].
  { pose proof float_overflow_large.
    intros n [->|[->|[]%elem_of_nil]%elem_of_cons]%elem_of_cons; simpl; [lra|].
    rewrite Hp. lra. }
  rewrite Hpi.
  destruct (compute_pi_positive_temp _ _ _ Rlt_0_1 Hpi) as [Hnz _].
  simpl in Hnz. unfold sum_R in Hnz. simpl in Hnz. rewrite Hp in Hnz.
  rewrite Hnz by lra. f_equal. f_equal; [lra|]. f_equal. lra.
Qed.

Lemma toy_probs :
  ∃ h', search_loop toy_forward 2 toy_tree 1 0 toy_heap = ([], Ok (1%nat, h')) ∧
        get_action_probs toy_forward 2 toy_tree 1 1 toy_heap = ([], Ok ([0; 1], h')).
Proof.
  destruct toy_search as (h' & Hloop & HNs & Hroot).
  exists h'. split; [done|].
  eapply get_action_probs_run; [lia|done|done|done|apply toy_pi].
Qed.

(** The second example tree: the root's second child has been visited
    twice, so the simulation goes to the first; the counts are then 1 and
    2. *)
Lemma pass_select :
  select_best_child toy_forward 0 1 pass_heap = ([], Ok (Some 1%nat, 0%nat, pass_heap)).
Proof.
  unfold select_best_child, mbind, M_bind, bind_M, get_node. simpl.
  unfold read_M. simpl.
  unfold UCB, avg_Q, child_at, index. simpl.
  unfold mbind, outcome_bind. simpl.
  destruct (Rgt_dec _ _) as [Hgt|Hn]; [|done].
  exfalso. pose proof (sqrt_pos (1 + 1 + 1)). lra.
Qed.

Lemma pass_search :
  ∃ h', search_loop toy_forward 2 pass_tree 1 0 pass_heap = ([], Ok (1%nat, h')) ∧
        visit_counts h' [Some 1; Some 2]%nat = Ok [1; 2]%nat ∧
        h' !! 0%nat
        = Some (toy_node None 0 [Some 1; Some 2]%nat (Toy [1%nat] true) 4 0 (0 + - 0)).
Proof.
  eexists. split.
  - pose proof pass_select as Hsel.
    cbn [search_loop]. unfold simulate. cbn [descend].
    set (sel := select_best_child toy_forward 0 1) in *.
    unfold mbind, M_bind, bind_M. simpl. subst sel. rewrite pass_select. reflexivity.
  - split; reflexivity.
Qed.

Lemma Rpower_inv_pow (x : R) (k : nat) :
  0 < x → (0 < k)%nat → Rpower x (1 / (1 / INR k)) = x ^ k.
Proof.
  intros Hx Hk. assert (0 < INR k) by (apply lt_0_INR; lia).
  replace (1 / (1 / INR k)) with (INR k) by (field; lra).
  by apply Rpower_pow.
Qed.

Lemma compute_pi_zero_returns (Ns : list nat) : Ns ≠ [] → ∃ pi, compute_pi Ns 0 = Ok pi.
Proof.
  intros Hne. unfold compute_pi. destruct (Rgt_dec 0 0) as [Hn|_]; [lra|].
  destruct Ns; [done|]. unfold normalize_l1. simpl. by eexists.
Qed.

Lemma pass_pi_returns (k : nat) :
  (0 < k)%nat → (k <= 8)%nat → ∃ pi, compute_pi [1; 2]%nat (1 / INR k) = Ok pi.
Proof.
  intros Hk Hk8. assert (0 < INR k) by (apply lt_0_INR; lia).
  apply compute_pi_positive_returns; [by apply Rdiv_pos_pos; lra|done|].
  pose proof float_overflow_large as Hfo.
  intros n [->|[->|[]%elem_of_nil]%elem_of_cons]%elem_of_cons; cbn [np_power].
  - rewrite Rpower_inv_pow by (simpl; lra || done). simpl INR. rewrite pow1. lra.
  - rewrite Rpower_inv_pow by (simpl; lra || done). simpl INR.
    assert (Hle : (1 + 1) ^ k <= (1 + 1) ^ 8) by (apply Rle_pow; [lra|lia]).
    simpl in Hle. lra.
Qed.

Lemma pass_probs temp :
  (∃ pi, compute_pi [1; 2]%nat temp = Ok pi) →
  ∃ h' pi,
    get_action_probs toy_forward 2 pass_tree 1 temp pass_heap = ([], Ok (pi, h')) ∧
    h' !! 0%nat
    = Some (toy_node None 0 [Some 1; Some 2]%nat (Toy [1%nat] true) 4 0 (0 + - 0)) ∧
    slot_counts h' [Some 1; Some 2]%nat = [1; 2]%nat.
Proof.
  intros [pi Hpi]. destruct pass_search as (h' & Hloop & HNs & Hroot).
  exists h', pi. split; [|split; [done|]].
  - eapply get_action_probs_run; [lia|done|done|done|done].
  - symmetry. by apply visit_counts_slot_counts.
Qed.

Lemma float_overflow_below : float_overflow < 2 ^ 1024.
Proof.
  unfold float_overflow. change 1024%nat with (970 + 54)%nat. rewrite pow_add.
  assert (0 < 2 ^ 970) by (apply pow_lt; lra).
  generalize dependent (2 ^ 970). generalize (2 ^ 54). intros a b Hb. nra.
Qed.

(** At temperature 1/2048 the power of the count 2 is [2 ^ 2048]: the
    call raises after its simulation. *)
Example get_action_probs_small_temp_raises :
  get_action_probs toy_forward 2 pass_tree 1 (1 / 2048) pass_heap = ([], Raise ValueError).
Proof.
  destruct pass_search as (h' & Hloop & HNs & Hroot).
  eapply (get_action_probs_overflow _ _ _ _ _ _ _ _ _ _ _ 2%nat);
    [|exact Hloop|exact Hroot|exact HNs|lra| |]; [lia| |].
  - apply list_elem_of_further, list_elem_of_here.
  - cbn [np_power].
    assert (E : 1 / (1 / 2048) = INR 2048).
    { rewrite INR_IZR_INZ. change (IZR (Z.of_nat 2048)) with 2048. lra. }
    rewrite E, Rpower_pow by (simpl; lra).
    replace (INR 2) with 2 by (simpl; lra).
    pose proof float_overflow_below.
    assert (2 ^ 1024 <= 2 ^ 2048) by (apply Rle_pow; [lra|lia]). lra.
Qed.

(** C1, the code at a concrete tree (root of the example game at the empty
    board, both children cached, one search at temperature 1): the loop
    runs one simulation, its counter [num_search] ends at 1 and the root's
    visit count goes from 1 to 2, but the value returned is the vector
    [pi] alone; the counter is not part of it. *)
Theorem get_action_probs_returns_pi_alone :
  ∃ h' rn',
    search_loop toy_forward 2 toy_tree 1 0 toy_heap = ([], Ok (1%nat, h')) ∧
    get_action_probs toy_forward 2 toy_tree 1 1 toy_heap = ([], Ok ([0; 1], h')) ∧
    h' !! root toy_tree = Some rn' ∧ N rn' = 2%nat.
Proof.
  destruct toy_search as (h' & Hloop & HNs & Hroot).
  exists h', (toy_node None 0 [Some 1; Some 2]%nat (Toy [] false) 2 0 (0 + - 0)).
  split; [done|]. split; [|done].
  eapply get_action_probs_run; [lia|done|done|done|apply toy_pi].
Qed.

(** C2, the code at a concrete tree (the tree built on the empty board of
    the example game, whose root has no cached child): [step(0)] calls the
    evaluator on the canonical successor, but the new root, which has no
    parent, holds the successor state itself, not its canonical form. *)
Theorem step_fresh_root_not_canonical :
  ∃ h' n',
    step toy_forward 1 fresh_tree 0 fresh_heap
    = ([[Toy [0%nat] true]], Ok (mkTree 1 1 2, h')) ∧
    h' !! 1%nat = Some n' ∧ parent n' = None ∧
    state n' = get_next_state (Toy [] false) 0 ∧
    state n' ≠ get_canonical_form (get_next_state (Toy [] false) 0)
                                   (get_turn (get_next_state (Toy [] false) 0)).
Proof.
  eexists _, _. split; [reflexivity|]. split; [reflexivity|].
  split; [reflexivity|]. split; [reflexivity|]. discriminate.
Qed.

(** The tie of the specification: two slots visited twice, the others
    never, at temperature 0. *)
Example compute_pi_tie : compute_pi [2; 0; 2]%nat 0 = Ok [1 / 2; 0; 1 / 2].
Proof.
  destruct (compute_pi [2; 0; 2]%nat 0) as [pi| |] eqn:Hpi.
  - destruct (compute_pi_zero_temp _ _ Hpi) as [-> _]. reflexivity.
  - unfold compute_pi in Hpi. destruct (Rgt_dec 0 0); [lra|done].
  - unfold compute_pi in Hpi. destruct (Rgt_dec 0 0); [lra|done].
Qed.


Lemma terminal_root_never_expands_witness :
  ∃ pi rn',
    get_action_probs toy_forward 1 ended_tree 2 0 ended_heap
    = ([], Ok (pi, <[0%nat := rn']> ended_heap)).
Proof.
  destruct (terminal_root_never_expands toy_forward 1 ended_tree 2 0 ended_heap
              (toy_node None 0 [None; None] (Toy [1; 1]%nat false) 1 0 (0 + 0)))
    as (pi & rn' & Hrun & _).
  - reflexivity.
  - reflexivity.
  - reflexivity.
  - reflexivity.
  - simpl. lia.
  - lia.
  - lia.
  - by exists pi, rn'.
Defined.

(** * Further properties of the search and of the policies *)

Section FurtherProperties.

Context {State : Type} {G : GoGame State}.
Variable forward_func : list State → list (list R) * list R.
Implicit Types (h : heap State) (node : Node State) (t : MCTree).

(** [Node.__init__] with a parent and an action slot within range, on a
    square state: the new node gets the next address, an empty slot array
    of [rows^2 + 1] entries, [N = 0], [Q_sum = 0], the given value and
    priors, and height one more than its parent's; the parent's slot for
    the action now holds the new node and the new node's parent link holds
    the parent; the parent's other slots and statistics and all other
    nodes are unchanged. *)
Theorem Node_init_child p a probs value s h pn ch k :
  h !! p = Some pn → (a < length (children pn))%nat → shape s = (ch, k, k) →
  ∃ h' child pn',
    Node_init (Some (p, a)) probs value (Board s) h = Ok (length h, h') ∧
    length h' = S (length h) ∧
    h' !! length h = Some child ∧
    parent child = Some p ∧ height child = S (height pn) ∧
    N child = 0%nat ∧ V child = value ∧ Q_sum child = 0 ∧
    state child = s ∧ action_probs child = probs ∧
    children child = replicate (k ^ 2 + 1) None ∧
    h' !! p = Some pn' ∧
    children pn' !! a = Some (Some (length h)) ∧
    (∀ b, b ≠ a → children pn' !! b = children pn !! b) ∧
    N pn' = N pn ∧ Q_sum pn' = Q_sum pn ∧ parent pn' = parent pn ∧
    (∀ j, j ≠ p → (j < length h)%nat → h' !! j = h !! j).
Proof.
  intros Hp Ha Hshape. pose proof (lookup_lt_Some _ _ _ Hp) as Hlt.
  unfold Node_init. rewrite (deref_Some _ _ _ Hp). simpl.
  rewrite decide_True by done. simpl. rewrite Hshape, Nat.eqb_refl. simpl.
  eexists _, _, _. split; [done|].
  split; [by rewrite length_app, length_insert; simpl; lia|].
  split. { rewrite lookup_app_r by (by rewrite length_insert).
           by rewrite length_insert, Nat.sub_diag. }
  do 8 (split; [done|]).
  split. { rewrite lookup_app_l by (by rewrite length_insert).
           by apply list_lookup_insert_eq. }
  simpl. split; [by apply list_lookup_insert_eq|].
  split; [intros b Hb; by apply list_lookup_insert_ne|].
  do 3 (split; [done|]).
  intros j Hj Hjlt. rewrite lookup_app_l by (by rewrite length_insert).
  by apply list_lookup_insert_ne.
Qed.

Lemma MCTree_init_ok fuel st h pis vals p v ch k :
  forward_func [st] = (pis, vals) → pis !! 0%nat = Some p → vals !! 0%nat = Some v →
  shape st = (ch, k, k) → (0 < fuel)%nat →
  MCTree_init forward_func fuel st h
  = ([[st]],
     Ok (mkTree (length h) k (get_action_size st),
         h ++ [mkNode None 0 (replicate (k ^ 2 + 1) None) p st (get_turn st)
                      (get_game_ended st) 1 v (0 + v)])).
Proof.
  intros Hfwd Hp Hv Hshape Hfuel. destruct fuel as [|fuel]; [lia|].
  unfold MCTree_init, mbind, M_bind, bind_M, call_forward. rewrite Hfwd.
  unfold pure_M, index. rewrite Hp, Hv. simpl.
  unfold heap_M, Node_init. simpl. rewrite Hshape, Nat.eqb_refl. simpl.
  unfold get_node, deref. rewrite lookup_app_r, Nat.sub_diag by done. simpl.
  unfold back_propagate_M, heap_M. simpl. unfold deref.
  rewrite lookup_app_r, Nat.sub_diag by done. simpl.
  rewrite insert_app_r_alt, Nat.sub_diag by done. done.
Qed.

(** [MCTree.__init__] on a square state, with an evaluator that answers
    the singleton batch: the evaluator is called once, on [[state]]; the
    root is a new node without parent and with empty slots, already
    visited once ([N = 1]) with [Q_sum] equal to its own value; the tree
    records the number of rows and the action size of the state. *)
Theorem MCTree_init_bootstrap fuel st h pis vals p v ch k :
  forward_func [st] = (pis, vals) → pis !! 0%nat = Some p → vals !! 0%nat = Some v →
  shape st = (ch, k, k) → (0 < fuel)%nat →
  ∃ rn, MCTree_init forward_func fuel st h
        = ([[st]], Ok (mkTree (length h) k (get_action_size st), h ++ [rn])) ∧
    parent rn = None ∧ N rn = 1%nat ∧ V rn = v ∧ Q_sum rn = 0 + v ∧
    state rn = st ∧ action_probs rn = p ∧ terminal rn = get_game_ended st ∧
    children rn = replicate (k ^ 2 + 1) None.
Proof.
  intros Hfwd Hp Hv Hshape Hfuel. eexists. split.
  - by eapply MCTree_init_ok.
  - done.
Qed.

(** [MCTree.reset] is the construction of a tree at
    [get_init_board(board_size)]: the same call on the evaluator, the same
    result; the new root is a new node, visited once, and the nodes of the
    previous tree stay in the heap as they were. *)
Theorem reset_rebuilds_root fuel t h pis vals p v ch k :
  let initial_state := get_init_board (board_size t) in
  forward_func [initial_state] = (pis, vals) →
  pis !! 0%nat = Some p → vals !! 0%nat = Some v →
  shape initial_state = (ch, k, k) → (0 < fuel)%nat →
  ∃ t' rn,
    reset forward_func fuel t h = ([[initial_state]], Ok (t', h ++ [rn])) ∧
    MCTree_init forward_func fuel initial_state h
    = ([[initial_state]], Ok (t', h ++ [rn])) ∧
    root t' = length h ∧ board_size t' = k ∧
    parent rn = None ∧ N rn = 1%nat ∧ Q_sum rn = 0 + v ∧ state rn = initial_state.
Proof.
  intros st Hfwd Hp Hv Hshape Hfuel. unfold reset. fold st.
  rewrite (MCTree_init_ok fuel st h pis vals p v ch k) by done.
  by eexists _, _.
Qed.

Lemma cached_children_empty (n : Node State) k :
  children n = replicate k None → cached_children n = false.
Proof.
  unfold cached_children. intros ->. induction k as [|k IH]; simpl; done.
Qed.

(** [MCTree.cache_children] completes no child.  On a terminal node it
    returns at once without calling the evaluator; on a node that is not
    terminal and has a legal move it raises; it returns only on a terminal
    node or on one without a legal move, and the heap is then the one it
    started from.  (Where the raise comes from the constructor of the first
    child, the source has by then overwritten the slot of the first legal
    move with the object under construction, see [Node_init]; the heap
    after an exception is not part of the result.) *)
Theorem cache_children_returns_unchanged i h node :
  h !! i = Some node →
  (terminal node = true → cache_children forward_func i h = ([], Ok (tt, h))) ∧
  (terminal node = false → argwhere (get_valid_moves (state node)) ≠ [] →
     ∃ calls e, cache_children forward_func i h = (calls, Raise e)) ∧
  (∀ calls u h', cache_children forward_func i h = (calls, Ok (u, h')) →
     h' = h ∧
     (terminal node = true ∨ argwhere (get_valid_moves (state node)) = [])).
Proof.
  intros Hi. split; [|split].
  - intros Hterm. unfold cache_children, mbind, M_bind, bind_M, get_node.
    rewrite (deref_Some _ _ _ Hi). simpl. by rewrite Hterm.
  - intros Hterm Hmoves. by eapply cache_children_raises.
  - intros calls u h' Hrun. destruct (terminal node) eqn:Hterm.
    + unfold cache_children, mbind, M_bind, bind_M, get_node in Hrun.
      rewrite (deref_Some _ _ _ Hi) in Hrun. simpl in Hrun. rewrite Hterm in Hrun.
      injection Hrun as _ _ <-. split; [done|by left].
    + destruct (argwhere (get_valid_moves (state node))) as [|m ms] eqn:Hmoves.
      * unfold cache_children, mbind, M_bind, bind_M, get_node in Hrun.
        rewrite (deref_Some _ _ _ Hi) in Hrun. simpl in Hrun.
        rewrite Hterm, Hmoves in Hrun.
        destruct (get_immediate_lookahead forward_func [state node] h)
          as [c [[[[bp bq] bc] h1]| |]] eqn:Hla; simpl in Hrun; [|done..].
        apply get_immediate_lookahead_heap in Hla as ->.
        injection Hrun as _ _ <-. split; [done|by right].
      * destruct (cache_children_raises forward_func i h node Hi Hterm) as (c & e & Hr).
        { by rewrite Hmoves. }
        rewrite Hr in Hrun. done.
Qed.

(** A search on a newly built tree whose state is not terminal and has a
    legal move does not return: the construction succeeds and
    [get_action_probs] raises, for every positive number of searches and
    every temperature. *)
Theorem fresh_tree_search_raises fuel st h pis vals p v ch k max_num_searches temp :
  forward_func [st] = (pis, vals) → pis !! 0%nat = Some p → vals !! 0%nat = Some v →
  shape st = (ch, k, k) → (0 < fuel)%nat →
  get_game_ended st = false → argwhere (get_valid_moves st) ≠ [] →
  (0 < max_num_searches)%nat →
  ∃ t h', MCTree_init forward_func fuel st h = ([[st]], Ok (t, h')) ∧
    ∃ calls e,
      get_action_probs forward_func fuel t max_num_searches temp h' = (calls, Raise e).
Proof.
  intros Hfwd Hp Hv Hshape Hfuel Hend Hmoves Hmax.
  eexists _, _. split; [by eapply MCTree_init_ok|].
  eapply get_action_probs_uncached_root_raises; try done.
  - simpl. rewrite lookup_app_r, Nat.sub_diag by done. done.
  - done.
  - done.
  - by eapply cached_children_empty.
  - done.
Qed.

(** [step] taken apart: the node that becomes the root, in the heap
    [hmid] reached before its parent link is cleared. *)
Lemma step_inv fuel t action h calls t' h' :
  step forward_func fuel t action h = (calls, Ok (t', h')) →
  ∃ hmid cn rn slot,
    h !! root t = Some rn ∧ children rn !! action = Some slot ∧
    root t' = default (length h) slot ∧
    calls = match slot with
            | Some _ => []
            | None => [[get_canonical_form (get_next_state (state rn) action)
                          (get_turn (get_next_state (state rn) action))]]
            end ∧
    hmid !! root t' = Some cn ∧
    (length h ≤ length hmid)%nat ∧
    (∀ j, (j < length h)%nat → hmid !! j = h !! j) ∧
    h' = <[root t' := if visited cn then set_parent cn None
                      else bump (set_parent cn None) (V cn)]> hmid ∧
    board_size t' = board_size t ∧ action_size t' = action_size t.
Proof.
  unfold step. intros Hrun.
  apply bind_M_Ok in Hrun as (c1 & rn & h1 & c2 & Hget & Hrun & ->).
  apply get_node_Ok in Hget as (Hrn & -> & ->).
  apply bind_M_Ok in Hrun as (c3 & slot & h2 & c4 & Hidx & Hrun & ->).
  apply pure_M_Ok in Hidx as (Hidx & -> & ->).
  unfold index in Hidx. destruct (children rn !! action) as [slot'|] eqn:Hslot; [|done].
  injection Hidx as ->.
  apply bind_M_Ok in Hrun as (c5 & child & h3 & c6 & Hchild & Hrun & ->).
  apply bind_M_Ok in Hrun as (c7 & cn & h4 & c8 & Hget & Hrun & ->).
  apply get_node_Ok in Hget as (Hcn & -> & ->).
  apply bind_M_Ok in Hrun as (c9 & [] & h5 & c10 & Hset & Hrun & ->).
  apply heap_M_Ok in Hset as ([= <-] & ->).
  apply bind_M_Ok in Hrun as (c11 & cn' & h6 & c12 & Hget & Hrun & ->).
  apply get_node_Ok in Hget as (Hcn' & -> & ->).
  rewrite list_lookup_insert_eq in Hcn' by (by eapply lookup_lt_Some).
  injection Hcn' as <-.
  apply bind_M_Ok in Hrun as (c13 & [] & h7 & c14 & Hbp & Hret & ->).
  injection Hret as <- <- <-. simpl.
  exists h3, cn, rn, slot. split; [done|]. split; [done|].
  assert (Hmid : child = default (length h) slot
                 ∧ c5 = match slot with
                        | Some _ => []
                        | None => [[get_canonical_form (get_next_state (state rn) action)
                                      (get_turn (get_next_state (state rn) action))]]
                        end
                 ∧ (length h ≤ length h3)%nat
                 ∧ ∀ j, (j < length h)%nat → h3 !! j = h !! j).
  { destruct slot as [c|].
    - apply ret_M_Ok in Hchild as (-> & -> & ->). done.
    - apply bind_M_Ok in Hchild as (c15 & [pis vals] & h8 & c16 & Hcall & Hchild & ->).
      injection Hcall as <- _ <-.
      apply bind_M_Ok in Hchild as (c17 & probs & h9 & c18 & Hp & Hchild & ->).
      apply pure_M_Ok in Hp as (_ & -> & ->).
      apply bind_M_Ok in Hchild as (c19 & value & h10 & c20 & Hv & Hchild & ->).
      apply pure_M_Ok in Hv as (_ & -> & ->).
      apply heap_M_Ok in Hchild as (Hinit & ->).
      apply Node_init_root in Hinit as (-> & n0 & -> & _).
      split; [done|]. split; [done|]. split; [rewrite length_app; lia|].
      intros j Hj. by rewrite lookup_app_l. }
  destruct Hmid as (Hroot & Hc5 & Hlen & Hsame).
  assert (Hlast : c13 = [] ∧
            h7 = <[child := if visited cn then set_parent cn None
                            else bump (set_parent cn None) (V cn)]> h3).
  { simpl in Hbp. change (visited (set_parent cn None)) with (visited cn) in Hbp.
    destruct (visited cn).
    - by apply ret_M_Ok in Hbp as (_ & -> & ->).
    - apply heap_M_Ok in Hbp as (Hbp & ->). split; [done|].
      destruct (back_propagate fuel child (V cn) _) as [hb| |] eqn:Hb; [|done..].
      simpl in Hbp. injection Hbp as <-.
      eapply (back_propagate_root _ _ _ _ (set_parent cn None)) in Hb as ->;
        [|apply list_lookup_insert_eq; by eapply lookup_lt_Some|done].
      by rewrite list_insert_insert_eq. }
  destruct Hlast as [-> ->].
  split; [done|]. split. { rewrite Hc5. by destruct slot. }
  done.
Qed.

(** After [MCTree.step] returns, the root has no parent and has been
    visited ([N > 0]); the board size and action size of the tree are
    unchanged and no node other than the new root is modified.  When the
    slot of the action held a child, that child is the new root, the
    evaluator is not called, and the child keeps its statistics if it had
    been visited, or else gets [N = 1] and its own value added to
    [Q_sum]. *)
Theorem step_root_visited fuel t action h calls t' h' :
  step forward_func fuel t action h = (calls, Ok (t', h')) →
  ∃ n', h' !! root t' = Some n' ∧ parent n' = None ∧ (0 < N n')%nat ∧
    board_size t' = board_size t ∧ action_size t' = action_size t ∧
    (∀ j, j ≠ root t' → (j < length h)%nat → h' !! j = h !! j) ∧
    (∀ rn c cn, h !! root t = Some rn → children rn !! action = Some (Some c) →
       h !! c = Some cn →
       root t' = c ∧ calls = [] ∧
       N n' = (if visited cn then N cn else 1%nat) ∧
       Q_sum n' = (if visited cn then Q_sum cn else Q_sum cn + V cn) ∧
       children n' = children cn ∧ state n' = state cn).
Proof.
  intros (hmid & cn & rn & slot & Hrn & Hslot & Hroot & Hcalls & Hcn & Hlen & Hsame
          & -> & Hb & Ha)%step_inv.
  pose proof (lookup_lt_Some _ _ _ Hcn) as Hlt.
  eexists. split; [by apply list_lookup_insert_eq|].
  split. { by destruct (visited cn). }
  split. { unfold visited. destruct (Nat.ltb_spec 0 (N cn)); simpl; lia. }
  split; [done|]. split; [done|].
  split. { intros j Hj Hjlt. rewrite list_lookup_insert_ne by done. by apply Hsame. }
  intros rn0 c cn0 Hrn0 Hslot0 Hc0.
  rewrite Hrn in Hrn0. injection Hrn0 as <-. rewrite Hslot in Hslot0.
  injection Hslot0 as ->. simpl in Hroot, Hcalls.
  rewrite Hroot in Hcn. rewrite Hsame in Hcn by (by eapply lookup_lt_Some).
  rewrite Hc0 in Hcn. injection Hcn as <-.
  split; [done|]. split; [done|].
  unfold visited. destruct (Nat.ltb_spec 0 (N cn0)); simpl; repeat split; try done.
  assert (N cn0 = 0%nat) as -> by lia. done.
Qed.

Lemma Qs_loop_inv h node (v : list bool) : ∀ k a0 qs,
  Qs_loop h node v (seq a0 k) = Ok qs →
  length qs = k ∧
  ∀ j, (j < k)%nat →
    ∃ (b : bool) (q : R), v !! (a0 + j)%nat = Some b ∧ qs !! j = Some q ∧
           (if b then avg_Q h node (a0 + j) = Ok q else q = 0).
Proof.
  induction k as [|k IH]; intros a0 qs Hrun; simpl in Hrun.
  - injection Hrun as <-. split; [done|]. intros; lia.
  - unfold index in Hrun. destruct (v !! a0) as [b|] eqn:Hb; simpl in Hrun; [|done].
    destruct (if b then avg_Q h node a0 else Ok 0) as [q| |] eqn:Hq;
      simpl in Hrun; [|done..].
    destruct (Qs_loop h node v (seq (S a0) k)) as [rest| |] eqn:Hrest;
      simpl in Hrun; [|done..].
    injection Hrun as <-. destruct (IH _ _ Hrest) as [Hlen Hj].
    split; [simpl; lia|]. intros [|j] Hlt.
    + exists b, q. rewrite Nat.add_0_r. split; [done|]. split; [done|].
      destruct b; [done|]. by injection Hq as <-.
    + replace (a0 + S j)%nat with (S a0 + j)%nat by lia. apply Hj. lia.
Qed.

Lemma Qs_loop_no_diverge h node (v : list bool) : ∀ moves,
  Qs_loop h node v moves ≠ Diverge.
Proof.
  induction moves as [|a moves IH]; simpl; [done|].
  unfold index. destruct (v !! a) as [b|]; simpl; [|done].
  assert (Hq : (if b then avg_Q h node a else Ok 0) ≠ Diverge).
  { destruct b; [|done]. unfold avg_Q, child_at, index.
    destruct (children node !! a) as [[c|]|]; simpl; [|done..].
    unfold deref. by destruct (h !! c). }
  destruct (if b then avg_Q h node a else Ok 0); simpl; [|done..].
  destruct (Qs_loop h node v moves); simpl; done.
Qed.

Lemma Qs_loop_ok h node (v : list bool) : ∀ k a0,
  (a0 + k ≤ length v)%nat →
  (∀ a, v !! a = Some true → ∃ q, avg_Q h node a = Ok q) →
  ∃ qs, Qs_loop h node v (seq a0 k) = Ok qs.
Proof.
  induction k as [|k IH]; intros a0 Hlen Hq; simpl; [by eexists|].
  unfold index. destruct (v !! a0) as [b|] eqn:Hb; [|apply lookup_ge_None in Hb; lia].
  simpl. destruct (IH (S a0)) as [rest Hrest]; [lia|done|].
  destruct b.
  - destruct (Hq a0 Hb) as [q ->]. simpl. rewrite Hrest. by eexists.
  - simpl. rewrite Hrest. by eexists.
Qed.

(** [Node.Qs] on a node whose legal moves all have a child: the result has
    one entry per action, 0 for an illegal move and
    [-(child.V + child.Q_sum) / (1 + N)] for a legal one. *)
Theorem Qs_values h node :
  length (get_valid_moves (state node)) = get_action_size (state node) →
  moves_cached h node →
  ∃ qs, Qs h node = Ok qs ∧ length qs = get_action_size (state node) ∧
    ∀ a,
      (get_valid_moves (state node) !! a = Some false → qs !! a = Some 0) ∧
      (get_valid_moves (state node) !! a = Some true →
         ∃ c child, children node !! a = Some (Some c) ∧ h !! c = Some child ∧
           qs !! a = Some (- (V child + Q_sum child) / (1 + INR (N node)))).
Proof.
  intros Hcontract Hcached. unfold Qs.
  assert (Havg : ∀ a, get_valid_moves (state node) !! a = Some true →
            ∃ c child, children node !! a = Some (Some c) ∧ h !! c = Some child ∧
              avg_Q h node a = Ok (- (V child + Q_sum child) / (1 + INR (N node)))).
  { intros a Ha. destruct (Hcached a) as (c & Hc & [child Hchild] & _).
    { by apply argwhere_elem. }
    exists c, child. split; [done|]. split; [done|].
    unfold avg_Q, child_at, index. rewrite Hc. simpl.
    rewrite (deref_Some _ _ _ Hchild). simpl. f_equal.
    pose proof (pos_INR (N node)). field. lra. }
  destruct (Qs_loop_ok h node (get_valid_moves (state node))
              (get_action_size (state node)) 0) as [qs Hqs]; [lia| |].
  { intros a Ha. destruct (Havg a Ha) as (? & ? & _ & _ & ->). by eexists. }
  exists qs. split; [done|].
  destruct (Qs_loop_inv _ _ _ _ _ _ Hqs) as [Hlen Hj]. split; [done|].
  intros a. split.
  - intros Ha. destruct (Hj a) as (b & q & Hb & Hq & Hval).
    { apply lookup_lt_Some in Ha. lia. }
    simpl in Hb. rewrite Ha in Hb. injection Hb as <-. by subst q.
  - intros Ha. destruct (Hj a) as (b & q & Hb & Hq & Hval).
    { apply lookup_lt_Some in Ha. lia. }
    simpl in Hb, Hval. rewrite Ha in Hb. injection Hb as <-.
    destruct (Havg a Ha) as (c & child & Hc & Hchild & Havg').
    rewrite Havg' in Hval. injection Hval as <-. by exists c, child.
Qed.

(** [Node.Qs] raises on a node that has a legal move with an empty
    slot. *)
Theorem Qs_needs_children h node a :
  get_valid_moves (state node) !! a = Some true →
  (a < get_action_size (state node))%nat →
  children node !! a = Some None →
  ∃ e, Qs h node = Raise e.
Proof.
  intros Ha Hlt Hslot. unfold Qs.
  pose proof (Qs_loop_no_diverge h node (get_valid_moves (state node))
                (seq 0 (get_action_size (state node)))) as Hnd.
  destruct (Qs_loop _ _ _ _) as [qs|e|] eqn:Hrun; [|by eexists|done].
  exfalso. destruct (Qs_loop_inv _ _ _ _ _ _ Hrun) as [_ Hj].
  destruct (Hj a Hlt) as (b & q & Hb & _ & Hval). simpl in Hb, Hval.
  rewrite Ha in Hb. injection Hb as <-.
  unfold avg_Q, child_at, index in Hval. by rewrite Hslot in Hval.
Qed.

Lemma sum_R_scale (x : list R) (c : R) :
  sum_R ((fun v => v / c) <$> x) = sum_R x / c.
Proof.
  unfold sum_R. induction x as [|v x IH]; [simpl; lra|].
  rewrite fmap_cons. cbn [fold_right]. rewrite IH. lra.
Qed.

Lemma sum_R_nonneg (x : list R) : (∀ v, v ∈ x → 0 <= v) → 0 <= sum_R x.
Proof.
  unfold sum_R. induction x as [|v x IH]; intros Hpos; simpl; [lra|].
  assert (0 <= v) by (apply Hpos; left).
  assert (0 <= fold_right Rplus 0 x); [|lra].
  apply IH. intros w Hw. apply Hpos. by right.
Qed.

Lemma np_power_pos n e : (0 < n)%nat → 0 < np_power n e.
Proof. destruct n; [lia|]. intros _. simpl. unfold Rpower. apply exp_pos. Qed.

Lemma sum_R_indicator_scaled (Ns : list nat) (m : nat) (c : R) :
  sum_R ((fun n => if decide (n = m) then c else 0) <$> Ns)
  = INR (length (filter (fun n => n = m) Ns)) * c.
Proof.
  unfold sum_R. induction Ns as [|n Ns IH]; [simpl; lra|].
  rewrite fmap_cons. cbn [fold_right]. rewrite IH, filter_cons.
  destruct (decide (n = m)); [cbn [length]; rewrite S_INR|]; lra.
Qed.

Lemma compute_pi_distribution (Ns : list nat) temp pi :
  compute_pi Ns temp = Ok pi →
  (∀ p, p ∈ pi → 0 <= p) ∧
  (¬ temp > 0 ∨ (∃ n, n ∈ Ns ∧ (0 < n)%nat) → sum_R pi = 1).
Proof.
  intros Hpi. destruct (Rgt_dec temp 0) as [Hpos|Hnpos].
  - destruct (compute_pi_positive_temp Ns temp pi Hpos Hpi) as [Hnz Hz].
    set (x := (fun n => np_power n (1 / temp)) <$> Ns) in *.
    assert (Hx : ∀ v, v ∈ x → 0 <= v).
    { intros v (n & -> & _)%list_elem_of_fmap. apply np_power_nonneg. }
    pose proof (sum_R_nonneg x Hx) as Hsum.
    destruct (Req_dec_T (sum_R x) 0) as [Hzero|Hnonzero].
    + rewrite (Hz Hzero). split.
      * intros p (n & -> & _)%list_elem_of_fmap. lra.
      * intros [?|(n & Hn & Hn0)]; [done|]. exfalso.
        pose proof (sum_R_zero_all x Hx Hzero (np_power n (1 / temp))) as Hall.
        pose proof (np_power_pos n (1 / temp) Hn0).
        rewrite Hall in H; [lra|]. apply list_elem_of_fmap. by exists n.
    + rewrite (Hnz Hnonzero). split.
      * intros p (v & -> & Hv)%list_elem_of_fmap. specialize (Hx v Hv).
        apply Rmult_le_pos; [done|]. left. apply Rinv_0_lt_compat. lra.
      * intros _. rewrite sum_R_scale. by field.
  - rewrite (compute_pi_nonpositive Ns temp Hnpos) in Hpi.
    destruct (compute_pi_zero_temp Ns pi Hpi) as [-> Hk].
    assert (0 < INR (argmax_count Ns)) as Hpos by (apply lt_0_INR; lia).
    split.
    + intros p (n & -> & _)%list_elem_of_fmap. destruct (decide _); [|lra].
      apply Rmult_le_pos; [lra|]. left. by apply Rinv_0_lt_compat.
    + intros _. rewrite sum_R_indicator_scaled. fold (argmax_count Ns). field. lra.
Qed.


Lemma np_power_8 n : np_power n (1 / (1 / 8)) = INR n ^ 8.
Proof.
  destruct n as [|n]; [simpl; lra|]. unfold np_power.
  replace (1 / (1 / 8)) with (INR 8) by (simpl; lra).
  apply Rpower_pow. apply lt_0_INR. lia.
Qed.

(** [MctPolicy.__call__] with the default temperature schedule: before
    step 16 the temperature is 1/8, so [pi] is proportional to the eighth
    power of the visit counts; from step 16 on it is 0, so [pi] is uniform
    over the most visited slots. *)
Theorem MctPolicy_call_schedule fuel (p : MctPolicy) step_no h calls pi h' :
  temp_func p = default_temp_func →
  MctPolicy_call forward_func fuel p step_no h = (calls, Ok (pi, h')) →
  ∃ rn, h' !! root (tree p) = Some rn ∧
    let Ns := slot_counts h' (children rn) in
    ((step_no < 16)%nat →
       sum_R ((fun n => INR n ^ 8) <$> Ns) ≠ 0 →
       pi = (fun n => INR n ^ 8 / sum_R ((fun n => INR n ^ 8) <$> Ns)) <$> Ns) ∧
    ((16 ≤ step_no)%nat →
       pi = (fun n => if decide (n = max_list Ns)
                      then 1 / INR (argmax_count Ns) else 0) <$> Ns).
Proof.
  intros Htemp. unfold MctPolicy_call. rewrite Htemp. unfold default_temp_func.
  intros (_ & _ & rn & Hrn & Hpi)%get_action_probs_inv.
  exists rn. split; [done|]. cbv zeta.
  set (Ns := slot_counts h' (children rn)) in *. split.
  - intros Hlt Hnz. destruct (Nat.ltb_spec step_no 16); [|lia].
    assert (0 < 1 / 8) as Hpos by lra.
    destruct (compute_pi_positive_temp Ns (1 / 8) pi Hpos Hpi) as [Hsome _].
    assert (Heq : (fun n => np_power n (1 / (1 / 8))) <$> Ns = (fun n => INR n ^ 8) <$> Ns).
    { apply list_fmap_ext. intros ? n _. apply np_power_8. }
    simpl in Hsome. rewrite Heq in Hsome. rewrite (Hsome Hnz).
    by rewrite <- list_fmap_compose.
  - intros Hge. destruct (Nat.ltb_spec step_no 16); [lia|].
    by destruct (compute_pi_zero_temp Ns pi Hpi) as [-> _].
Qed.

Lemma sum_bool_R (v : list bool) i :
  fold_right Rplus 0 (bool_R <$> v) = INR (length (argwhere_from i v)).
Proof.
  revert i. induction v as [|b v IH]; intros i; [done|].
  rewrite fmap_cons. cbn [fold_right argwhere_from]. rewrite (IH (S i)).
  destruct b; cbn [length]; [rewrite S_INR|]; simpl; lra.
Qed.

(** [RandomPolicy.__call__] on a state with at least one legal move: one
    entry per action, [1 / k] for each of the [k] legal moves and 0 for the
    others; the entries sum to 1. *)
Theorem RandomPolicy_uniform (st : State) :
  (0 < legal_count (get_valid_moves st))%nat →
  length (RandomPolicy_call st) = length (get_valid_moves st) ∧
  (∀ a, get_valid_moves st !! a = Some true →
        RandomPolicy_call st !! a = Some (1 / INR (legal_count (get_valid_moves st)))) ∧
  (∀ a, get_valid_moves st !! a = Some false → RandomPolicy_call st !! a = Some 0) ∧
  sum_R (RandomPolicy_call st) = 1.
Proof.
  intros Hk. unfold RandomPolicy_call, legal_count, argwhere in *.
  rewrite (sum_bool_R _ 0).
  set (k := length (argwhere_from 0 (get_valid_moves st))) in *.
  assert (INR k ≠ 0) as Hnz by (apply not_0_INR; lia).
  split; [by rewrite !length_fmap|]. split; [|split].
  - intros a Ha. by rewrite !list_lookup_fmap, Ha.
  - intros a Ha. rewrite !list_lookup_fmap, Ha. simpl. f_equal. lra.
  - rewrite sum_R_scale. unfold sum_R. rewrite (sum_bool_R _ 0). fold k. by field.
Qed.
End FurtherProperties.

Section FurtherLookahead.

Context {State : Type} {G : GoGame State}.
Variable forward_func : list State → list (list R) * list R.
Implicit Types (h : heap State) (node : Node State) (t : MCTree).
Implicit Types (v : list bool) (cns : list State) (pis : list (list R)) (vals : list R).
Implicit Types (states : list State).

Lemma lookahead_moves_pis v cns pis vals : ∀ moves idx Qs cpis idx',
  lookahead_moves v cns pis vals moves idx = Ok (Qs, cpis, idx') →
  idx' = (idx + length cpis)%nat ∧
  ∀ r, (r < length cpis)%nat → cpis !! r = pis !! (idx + r)%nat.
Proof.
  induction moves as [|a moves IH]; intros idx Qs cpis idx' Hrun; simpl in Hrun.
  - injection Hrun as <- <- <-. split; [simpl; lia|]. simpl. intros; lia.
  - unfold index in Hrun. destruct (v !! a) as [[]|]; simpl in Hrun; [| |done].
    + destruct (cns !! idx) as [child|]; simpl in Hrun; [|done].
      destruct (vals !! idx) as [x|]; simpl in Hrun; [|done].
      destruct (pis !! idx) as [p|] eqn:Hp; simpl in Hrun; [|done].
      destruct (lookahead_moves v cns pis vals moves (S idx))
        as [[[Qs' cpis'] idx'']| |] eqn:Hrec; simpl in Hrun; [|done..].
      injection Hrun as <- <- <-. destruct (IH _ _ _ _ Hrec) as [-> Hr].
      split; [simpl; lia|]. intros [|r] Hlt; simpl.
      * by rewrite Nat.add_0_r.
      * replace (idx + S r)%nat with (S idx + r)%nat by lia. apply Hr. simpl in Hlt. lia.
    + destruct (lookahead_moves v cns pis vals moves idx)
        as [[[Qs' cpis'] idx'']| |] eqn:Hrec; simpl in Hrun; [|done..].
      injection Hrun as <- <- <-. by apply IH in Hrec.
Qed.

Lemma lookahead_states_pis cns pis vals : ∀ rest pre batch_pis batch_qvals idx',
  (∀ st, st ∈ rest → length (get_valid_moves st) = get_action_size st) →
  lookahead_states cns pis vals rest (length (all_children_states pre))
  = Ok (batch_pis, batch_qvals, idx') →
  length batch_pis = length rest ∧
  ∀ b st, rest !! b = Some st →
    ∃ cpis, batch_pis !! b = Some cpis ∧
      length cpis = legal_count (get_valid_moves st) ∧
      ∀ r, (r < length cpis)%nat →
        cpis !! r = pis !! (length (all_children_states (pre ++ take b rest)) + r)%nat.
Proof.
  induction rest as [|st rest IH]; intros pre batch_pis batch_qvals idx' Hcontract Hrun.
  - simpl in Hrun. injection Hrun as <- <- <-.
    split; [done|]. intros b st Hb. by rewrite lookup_nil in Hb.
  - simpl in Hrun.
    assert (Hst : length (get_valid_moves st) = get_action_size st)
      by (apply Hcontract; left).
    destruct (lookahead_moves (get_valid_moves st) cns pis vals
                (seq 0 (get_action_size st)) (length (all_children_states pre)))
      as [[[Qs cpis] idx1]| |] eqn:Hmoves; simpl in Hrun; try done.
    pose proof Hmoves as Hpis%lookahead_moves_pis. destruct Hpis as [Hidx1 Hr].
    replace (length (all_children_states pre))
      with (length (all_children_states pre) + legal_rank (get_valid_moves st) 0)%nat
      in Hmoves by (unfold legal_rank; simpl; lia).
    apply lookahead_moves_inv in Hmoves as (Hidx1' & _); [|lia].
    rewrite Nat.add_0_l, <- Hst, legal_rank_all in Hidx1'.
    assert (Hlen : length cpis = legal_count (get_valid_moves st))
      by (unfold legal_count; lia).
    rewrite Hidx1', <- all_children_states_snoc in Hrun.
    destruct (lookahead_states cns pis vals rest
                (length (all_children_states (pre ++ [st]))))
      as [[[bp bq] idx2]| |] eqn:Hrest; simpl in Hrun; try done.
    injection Hrun as <- <- <-.
    apply IH in Hrest as (Hbp & Hb); [|intros st' ?; apply Hcontract; by right].
    split; [simpl; lia|].
    intros [|b] st' Hst'; simpl in Hst'.
    + injection Hst' as <-. exists cpis. split; [done|]. split; [done|].
      intros r Hlt. simpl. rewrite app_nil_r. by apply Hr.
    + destruct (Hb b st' Hst') as (cpis' & ? & ? & Hr'). exists cpis'.
      split; [done|]. split; [done|]. intros r Hlt.
      rewrite <- app_assoc in Hr'. by apply Hr'.
Qed.

Lemma all_children_states_lookup_nth states b st r :
  states !! b = Some st → (r < legal_count (get_valid_moves st))%nat →
  all_children_states states !! (batch_offset states b + r)%nat
  = children_states st !! r.
Proof.
  intros Hb Hr. unfold batch_offset.
  assert (Hsplit : all_children_states states
                   = all_children_states (take b states)
                     ++ children_states st ++ all_children_states (drop (S b) states)).
  { transitivity (all_children_states (take b states ++ st :: drop (S b) states)).
    - by rewrite take_drop_middle.
    - by rewrite all_children_states_app. }
  rewrite Hsplit at 1. rewrite lookup_app_r by lia.
  replace (length (all_children_states (take b states)) + r
           - length (all_children_states (take b states)))%nat with r by lia.
  rewrite lookup_app_l; [done|]. unfold children_states. by rewrite length_fmap.
Qed.

(** Whenever [get_immediate_lookahead] returns (legal-move vectors having
    the length of the action space): the heap is untouched; the evaluator
    was called once; it returned as many priors and as many values as
    successors were requested; the third result is the array of all
    successors; and the priors returned for a batch state are, in the
    order of its legal moves, the evaluator's priors for the canonical
    successors of these moves. *)
Theorem get_immediate_lookahead_priors states h calls batch_pis batch_qvals children h' :
  (∀ st, st ∈ states → length (get_valid_moves st) = get_action_size st) →
  get_immediate_lookahead forward_func states h
  = (calls, Ok (batch_pis, batch_qvals, children, h')) →
  h' = h ∧ calls = [all_children_states states] ∧
  children = all_children_states states ∧
  length (forward_func (all_children_states states)).1 = length children ∧
  length (forward_func (all_children_states states)).2 = length children ∧
  length batch_pis = length states ∧
  ∀ b st, states !! b = Some st →
    ∃ cpis, batch_pis !! b = Some cpis ∧
      length cpis = legal_count (get_valid_moves st) ∧
      ∀ r move, argwhere (get_valid_moves st) !! r = Some move →
        ∃ p, cpis !! r = Some p ∧
          (forward_func (all_children_states states)).1 !! (batch_offset states b + r)%nat
          = Some p ∧
          all_children_states states !! (batch_offset states b + r)%nat
          = Some (get_canonical_form (get_next_state st move)
                    (get_turn (get_next_state st move))).
Proof.
  intros Hcontract Hrun. rewrite get_immediate_lookahead_unfold in Hrun.
  destruct (forward_func (all_children_states states)) as [pis vals] eqn:Hfwd.
  injection Hrun as <- Hrun. simpl.
  destruct (lookahead_states _ pis vals states 0) as [[[bp bq] idx]| |] eqn:Hstates;
    simpl in Hrun; [|done..].
  destruct (Nat.eqb_spec idx (length vals)) as [Hv|]; simpl in Hrun; [|done].
  destruct (Nat.eqb_spec idx (length pis)) as [Hp|]; simpl in Hrun; [|done].
  injection Hrun as <- <- <- <-.
  pose proof Hstates as Hinv.
  apply (lookahead_states_inv _ _ _ _ []) in Hinv as (Hidx & _); [|done].
  apply (lookahead_states_pis _ _ _ _ []) in Hstates as (Hlen & Hb); [|done].
  simpl in Hidx. subst idx.
  do 3 (split; [done|]). split; [congruence|]. split; [done|]. split; [done|].
  intros b st Hst. destruct (Hb b st Hst) as (cpis & Hcpis & Hlc & Hr).
  exists cpis. split; [done|]. split; [done|]. intros r move Hmove.
  assert (r < legal_count (get_valid_moves st))%nat as Hlt
      by (by eapply lookup_lt_Some).
  destruct (lookup_lt_is_Some_2 cpis r) as [p Hp']; [lia|].
  exists p. split; [done|]. split.
  - simpl in Hr. rewrite <- Hp'. symmetry. apply Hr. lia.
  - rewrite (all_children_states_lookup_nth _ _ _ _ Hst Hlt).
    unfold children_states. by rewrite list_lookup_fmap, Hmove.
Qed.

Lemma lookahead_returns (fwd : list State → list (list R) * list R) states h :
  (∀ st, st ∈ states → length (get_valid_moves st) = get_action_size st) →
  length (fwd (all_children_states states)).1 = length (all_children_states states) →
  length (fwd (all_children_states states)).2 = length (all_children_states states) →
  ∃ batch_pis batch_qvals,
    get_immediate_lookahead fwd states h
    = ([all_children_states states],
       Ok (batch_pis, batch_qvals, all_children_states states, h)) ∧
    ∀ b st, states !! b = Some st →
      ∃ Qs, batch_qvals !! b = Some Qs ∧ length Qs = get_action_size st ∧
        ∀ a,
          (get_valid_moves st !! a = Some false → Qs !! a = Some 0) ∧
          (get_valid_moves st !! a = Some true →
             ∃ x, (fwd (all_children_states states)).2
                    !! (batch_offset states b + legal_rank (get_valid_moves st) a)%nat
                  = Some x ∧
               Qs !! a = Some (- (if get_game_ended (canonical_next st a)
                                  then canonical_winning (canonical_next st a) else x))).
Proof.
  intros Hcontract Hpis Hvals.
  destruct (fwd (all_children_states states)) as [pis vals] eqn:Hfwd. simpl in *.
  destruct (lookahead_states_ok (all_children_states states) pis vals states [])
    as [[[batch_pis batch_qvals] idx] Hrun]; [done|simpl; lia..|].
  simpl in Hrun. pose proof Hrun as Hinv.
  apply (lookahead_states_inv _ _ _ _ []) in Hinv as (-> & Hlen & Hb); [|done].
  exists batch_pis, batch_qvals. split.
  - rewrite get_immediate_lookahead_unfold, Hfwd, Hrun. simpl.
    rewrite Hvals, Hpis, Nat.eqb_refl. done.
  - intros b st Hst. destruct (Hb b st Hst) as (Qs & HQs & HlenQ & Ha).
    exists Qs. split; [done|]. split; [done|]. intros a.
    destruct (Ha a) as [Hfalse Htrue]. split; [done|]. intros Hv.
    destruct (Htrue Hv) as (child' & x & Hc & Hx & HQ). simpl in Hc, Hx.
    pose proof (all_children_states_lookup states b st a Hst Hv) as Hlook.
    unfold batch_offset in *. rewrite Hlook in Hc. injection Hc as <-.
    by exists x.
Qed.

(** The value of [GreedyPolicy]'s evaluator lies in [[-1, 1]] when both
    areas are at most the (positive) board area; on a finished game it is
    exactly 1, -1 or 0 as the first area is greater than, less than or
    equal to the second. *)
Theorem greedy_val_bounded (board_area : nat) (st : State) :
  (0 < board_area)%nat →
  ((get_areas st).1 ≤ board_area)%nat → ((get_areas st).2 ≤ board_area)%nat →
  -1 <= greedy_val board_area st <= 1 ∧
  (get_game_ended st = true →
     ((get_areas st).2 < (get_areas st).1)%nat ∧ greedy_val board_area st = 1 ∨
     ((get_areas st).1 < (get_areas st).2)%nat ∧ greedy_val board_area st = -1 ∨
     (get_areas st).1 = (get_areas st).2 ∧ greedy_val board_area st = 0).
Proof.
  intros Hpos Hb Hw. unfold greedy_val.
  destruct (get_areas st) as [black white]. simpl in *.
  assert (0 < INR board_area) as Harea by (apply lt_0_INR; lia).
  pose proof (pos_INR black). pose proof (pos_INR white).
  apply le_INR in Hb, Hw.
  destruct (get_game_ended st).
  - destruct (Nat.ltb_spec white black); [split; [lra|intros _; by left]|].
    destruct (Nat.ltb_spec black white); [split; [lra|intros _; right; by left]|].
    split; [lra|]. intros _. right. right. split; [lia|done].
  - split; [|done]. split.
    + apply Rmult_le_reg_r with (INR board_area); [done|].
      unfold Rdiv. rewrite Rmult_assoc, Rinv_l by lra. lra.
    + apply Rmult_le_reg_r with (INR board_area); [done|].
      unfold Rdiv. rewrite Rmult_assoc, Rinv_l by lra. lra.
Qed.

Lemma canonical_winning_greedy (board_area : nat) (st : State) :
  get_game_ended st = true → canonical_winning st = greedy_val board_area st.
Proof.
  intros Hend. unfold canonical_winning, greedy_val. rewrite Hend.
  by destruct (get_areas st).
Qed.

(** With [GreedyPolicy]'s evaluator the lookahead of [GreedyPolicy.__call__]
    always returns (the evaluator gives one value and one prior vector per
    state), and the q-value of a legal move is the negated greedy value of
    its canonical successor, also when that successor ends the game; an
    illegal move has 0. *)
Theorem greedy_lookahead_qvals (board_area : nat) states h :
  (∀ st, st ∈ states → length (get_valid_moves st) = get_action_size st) →
  ∃ batch_pis batch_qvals,
    get_immediate_lookahead (greedy_forward_func board_area) states h
    = ([all_children_states states],
       Ok (batch_pis, batch_qvals, all_children_states states, h)) ∧
    ∀ b st, states !! b = Some st →
      ∃ Qs, batch_qvals !! b = Some Qs ∧ length Qs = get_action_size st ∧
        ∀ a,
          (get_valid_moves st !! a = Some false → Qs !! a = Some 0) ∧
          (get_valid_moves st !! a = Some true →
             Qs !! a = Some (- greedy_val board_area
                                 (get_canonical_form (get_next_state st a)
                                    (get_turn (get_next_state st a))))).
Proof.
  intros Hcontract.
  destruct (lookahead_returns (greedy_forward_func board_area) states h Hcontract)
    as (bp & bq & Hrun & Hb).
  { unfold greedy_forward_func. simpl. by rewrite length_replicate. }
  { unfold greedy_forward_func. simpl. by rewrite length_fmap. }
  exists bp, bq. split; [done|]. intros b st Hst.
  destruct (Hb b st Hst) as (Qs & HQs & Hlen & Ha). exists Qs.
  split; [done|]. split; [done|]. intros a. destruct (Ha a) as [Hfalse Htrue].
  split; [done|]. intros Hv. destruct (Htrue Hv) as (x & Hx & HQ).
  rewrite HQ. do 2 f_equal. unfold greedy_forward_func in Hx. simpl in Hx.
  rewrite list_lookup_fmap in Hx.
  rewrite (all_children_states_lookup states b st a Hst Hv) in Hx.
  simpl in Hx. injection Hx as <-. unfold canonical_next.
  destruct (get_game_ended _) eqn:Hend; [|done].
  by apply canonical_winning_greedy.
Qed.

Lemma select_best_child_returns i h node :
  h !! i = Some node → moves_cached h node →
  argwhere (get_valid_moves (state node)) ≠ [] →
  ∃ best c,
    select_best_child forward_func i 1 h = ([], Ok (Some c, best, h)) ∧
    get_valid_moves (state node) !! best = Some true ∧
    children node !! best = Some (Some c).
Proof.
  intros Hi Hm Hne.
  set (moves := argwhere (get_valid_moves (state node))) in *.
  assert (Hc : cached_children node = true).
  { destruct moves as [|a moves'] eqn:Hmoves; [done|].
    destruct (Hm a) as (c & Hslot & _); [fold moves; rewrite Hmoves; left|].
    unfold cached_children. apply existsb_exists. exists (Some c).
    split; [|done]. apply list_elem_of_In, list_elem_of_lookup. by exists a. }
  assert (Hf : ∀ a, a ∈ moves → UCB h node 1 a = Ok (ucb_formula h node a)).
  { intros a Ha. destruct (Hm a Ha) as (c & ? & ? & ?). by eapply UCB_formula. }
  destruct (best_move_loop_scanned h node 1 (ucb_formula h node) moves [] None NINF)
    as (best' & m' & Hloop & Hs); [done|done|].
  simpl in Hs. destruct best' as [b|], m' as [|x]; simpl in Hs; try done.
  destruct Hs as (_ & l1 & l2 & Hsplit & _).
  assert (Hb : b ∈ moves). { rewrite Hsplit. apply elem_of_app. right. by left. }
  destruct (Hm b Hb) as (c & Hcb & _ & _).
  exists b, c. split; [|split; [by apply argwhere_elem|done]].
  unfold select_best_child, mbind, M_bind, bind_M, get_node.
  rewrite (deref_Some _ _ _ Hi). simpl. rewrite Hc. simpl.
  rewrite (deref_Some _ _ _ Hi). simpl. unfold read_M. fold moves.
  rewrite Hloop. simpl. unfold index. rewrite Hcb. done.
Qed.


End FurtherLookahead.

(** Decoding the encoding of an action gives the action back: for the
    pass, and for coordinates whose column lies within the board and whose
    row is not the board width. *)
Theorem action_2d_round_trip (action_2d : option (Z * Z)) (board_width : Z) :
  match action_2d with
  | None => True
  | Some (row, col) => (0 <= col < board_width)%Z ∧ row ≠ board_width
  end →
  action_1d_to_2d (action_2d_to_1d action_2d board_width) board_width = Returns action_2d.
Proof.
  destruct action_2d as [[row col]|]; simpl.
  - intros [Hcol Hrow]. unfold action_1d_to_2d.
    destruct (Z.eqb_spec (row * board_width + col) (board_width ^ 2)) as [Heq|_].
    { exfalso. apply Hrow. nia. }
    destruct (Z.eqb_spec board_width 0) as [->|Hw]; [lia|].
    do 3 f_equal.
    + rewrite Z.div_add_l by done. rewrite Z.div_small by done. lia.
    + rewrite Z.add_comm, Z.mod_add by done. by apply Z.mod_small.
  - intros _. unfold action_1d_to_2d. by rewrite Z.eqb_refl.
Qed.

(** Whenever [action_1d_to_2d] returns, encoding its result gives the index
    back; this holds for every index and every board width. *)
Theorem action_1d_round_trip (action_1d board_width : Z) action_2d :
  action_1d_to_2d action_1d board_width = Returns action_2d →
  action_2d_to_1d action_2d board_width = action_1d.
Proof.
  unfold action_1d_to_2d.
  destruct (Z.eqb_spec action_1d (board_width ^ 2)) as [->|_].
  - by intros [= <-].
  - destruct (Z.eqb_spec board_width 0) as [->|Hw]; [done|].
    intros [= <-]. simpl. pose proof (Z.div_mod action_1d board_width Hw). lia.
Qed.

(** An index below [board_width^2] decodes to coordinates of the board. *)
Theorem action_1d_to_2d_on_board (action_1d board_width : Z) :
  (0 <= action_1d < board_width ^ 2)%Z → (0 < board_width)%Z →
  ∃ row col, action_1d_to_2d action_1d board_width = Returns (Some (row, col)) ∧
             (0 <= row < board_width)%Z ∧ (0 <= col < board_width)%Z.
Proof.
  intros Ha Hpos. unfold action_1d_to_2d.
  destruct (Z.eqb_spec action_1d (board_width ^ 2)); [lia|].
  destruct (Z.eqb_spec board_width 0); [lia|].
  eexists _, _. split; [done|]. split.
  - split; [apply Z.div_pos; lia|]. apply Z.div_lt_upper_bound; [lia|nia].
  - by apply Z.mod_pos_bound.
Qed.

(** ** The further properties on the example game *)

Lemma toy_moves_cached :
  moves_cached toy_heap (toy_node None 0 [Some 1; Some 2]%nat (Toy [] false) 1 0 0).
Proof.
  intros move Hm. vm_compute in Hm.
  apply elem_of_cons in Hm as [->|Hm]; [exists 1%nat; by repeat split; eexists|].
  apply elem_of_cons in Hm as [->|Hm]; [exists 2%nat; by repeat split; eexists|].
  by apply elem_of_nil in Hm.
Qed.

Lemma toy_step_fresh :
  ∃ h', step toy_forward 1 fresh_tree 0 fresh_heap
        = ([[Toy [0%nat] true]], Ok (mkTree 1 1 2, h')).
Proof. eexists. reflexivity. Qed.

Lemma toy_step_cached :
  ∃ h', step toy_forward 1 toy_tree 1 toy_heap = ([], Ok (mkTree 2 1 2, h')).
Proof. eexists. reflexivity. Qed.

Lemma toy_lookahead :
  ∃ batch_pis batch_qvals,
    get_immediate_lookahead toy_forward [Toy [] false] toy_heap
    = ([[Toy [0%nat] true; Toy [1%nat] true]],
       Ok (batch_pis, batch_qvals, [Toy [0%nat] true; Toy [1%nat] true], toy_heap)).
Proof. eexists _, _. reflexivity. Qed.

Lemma Node_init_child_witness :
  ∃ h', Node_init (Some (0%nat, 0%nat)) [1 / 2; 1 / 2] 0 (Board (Toy [0%nat] true))
          fresh_heap = Ok (1%nat, h').
Proof.
  destruct (Node_init_child 0 0 [1 / 2; 1 / 2] 0 (Toy [0%nat] true) fresh_heap
              (toy_node None 0 [None; None] (Toy [] false) 1 0 (0 + 0)) 6 1)
    as (h' & child & pn' & H & _).
  - reflexivity.
  - simpl. lia.
  - reflexivity.
  - by exists h'.
Defined.

Lemma MCTree_init_bootstrap_witness :
  ∃ rn, MCTree_init toy_forward 1 (Toy [] false) []
        = ([[Toy [] false]], Ok (mkTree 0 1 2, [rn])) ∧ N rn = 1%nat.
Proof.
  destruct (MCTree_init_bootstrap toy_forward 1 (Toy [] false) []
              [[1 / 2; 1 / 2]] [0] [1 / 2; 1 / 2] 0 6 1)
    as (rn & H & _ & HN & _).
  - reflexivity.
  - reflexivity.
  - reflexivity.
  - reflexivity.
  - lia.
  - by exists rn.
Defined.

Lemma reset_rebuilds_root_witness :
  ∃ t' rn, reset toy_forward 1 fresh_tree fresh_heap
           = ([[Toy [] false]], Ok (t', fresh_heap ++ [rn])) ∧ root t' = 1%nat.
Proof.
  destruct (reset_rebuilds_root toy_forward 1 fresh_tree fresh_heap
              [[1 / 2; 1 / 2]] [0] [1 / 2; 1 / 2] 0 6 1)
    as (t' & rn & H & _ & Hroot & _).
  - reflexivity.
  - reflexivity.
  - reflexivity.
  - reflexivity.
  - lia.
  - by exists t', rn.
Defined.

Lemma cache_children_returns_unchanged_witness :
  (∃ calls e, cache_children toy_forward 0 fresh_heap = (calls, Raise e)) ∧
  cache_children toy_forward 0 ended_heap = ([], Ok (tt, ended_heap)) ∧
  cache_children stuck_forward 0 stuck_heap = ([[]], Ok (tt, stuck_heap)).
Proof.
  destruct (cache_children_returns_unchanged toy_forward 0 fresh_heap
              (toy_node None 0 [None; None] (Toy [] false) 1 0 (0 + 0)) eq_refl)
    as (_ & Hraise & _).
  destruct (cache_children_returns_unchanged toy_forward 0 ended_heap
              (toy_node None 0 [None; None] (Toy [1; 1]%nat false) 1 0 (0 + 0)) eq_refl)
    as (Hterm & _ & _).
  destruct (cache_children_returns_unchanged stuck_forward 0 stuck_heap
              (mkNode None 0 [None; None] [1 / 2; 1 / 2] tt 0 false 1 0 0) eq_refl)
    as (_ & _ & Hret).
  split; [apply Hraise; [reflexivity|discriminate]|].
  split; [apply Hterm; reflexivity|].
  destruct (Hret [[]] tt stuck_heap eq_refl) as [_ _]. reflexivity.
Defined.

Lemma fresh_tree_search_raises_witness :
  ∃ t h', MCTree_init toy_forward 1 (Toy [] false) [] = ([[Toy [] false]], Ok (t, h')) ∧
    ∃ calls e, get_action_probs toy_forward 1 t 3 1 h' = (calls, Raise e).
Proof.
  apply (fresh_tree_search_raises toy_forward 1 (Toy [] false) []
           [[1 / 2; 1 / 2]] [0] [1 / 2; 1 / 2] 0 6 1 3 1).
  - reflexivity.
  - reflexivity.
  - reflexivity.
  - reflexivity.
  - lia.
  - reflexivity.
  - discriminate.
  - lia.
Defined.

Lemma step_new_root_witness :
  ∃ (h' : heap toy_state) n', h' !! 1%nat = Some n' ∧ parent n' = None.
Proof.
  destruct toy_step_fresh as (h' & Hstep).
  destruct (step_new_root toy_forward 1 fresh_tree 0 fresh_heap _ _ h' Hstep)
    as (rn & slot & n' & _ & _ & Hn' & Hpar & _).
  by exists h', n'.
Defined.

Lemma step_root_visited_witness :
  ∃ (h' : heap toy_state) n', h' !! 2%nat = Some n' ∧ (0 < N n')%nat.
Proof.
  destruct toy_step_cached as (h' & Hstep).
  destruct (step_root_visited toy_forward 1 toy_tree 1 toy_heap _ _ h' Hstep)
    as (n' & Hn' & _ & HN & _).
  by exists h', n'.
Defined.

Lemma Qs_values_witness :
  ∃ qs, Qs toy_heap (toy_node None 0 [Some 1; Some 2]%nat (Toy [] false) 1 0 0) = Ok qs
        ∧ length qs = 2%nat.
Proof.
  destruct (Qs_values toy_heap
              (toy_node None 0 [Some 1; Some 2]%nat (Toy [] false) 1 0 0))
    as (qs & H & Hlen & _).
  - reflexivity.
  - exact toy_moves_cached.
  - by exists qs.
Defined.

Lemma Qs_needs_children_witness :
  ∃ e, Qs fresh_heap (toy_node None 0 [None; None] (Toy [] false) 1 0 (0 + 0)) = Raise e.
Proof.
  apply (Qs_needs_children fresh_heap
           (toy_node None 0 [None; None] (Toy [] false) 1 0 (0 + 0)) 0).
  - reflexivity.
  - simpl. lia.
  - reflexivity.
Defined.

Lemma get_immediate_lookahead_priors_witness :
  ∃ batch_pis : list (list (list R)), length batch_pis = 1%nat.
Proof.
  destruct toy_lookahead as (bp & bq & Hrun).
  destruct (get_immediate_lookahead_priors toy_forward [Toy [] false] toy_heap
              [[Toy [0%nat] true; Toy [1%nat] true]] bp bq
              [Toy [0%nat] true; Toy [1%nat] true] toy_heap)
    as (_ & _ & _ & _ & _ & Hlen & _).
  - intros st Hst. apply list_elem_of_singleton in Hst as ->. reflexivity.
  - exact Hrun.
  - by exists bp.
Defined.

Lemma greedy_val_bounded_witness :
  -1 <= greedy_val 1 (Toy [0%nat] false) <= 1.
Proof.
  destruct (greedy_val_bounded 1 (Toy [0%nat] false)) as [H _].
  - lia.
  - vm_compute. lia.
  - vm_compute. lia.
  - exact H.
Defined.

Lemma greedy_lookahead_qvals_witness :
  ∃ batch_pis batch_qvals,
    get_immediate_lookahead (greedy_forward_func 1) [Toy [] false] toy_heap
    = ([all_children_states [Toy [] false]],
       Ok (batch_pis, batch_qvals, all_children_states [Toy [] false], toy_heap)).
Proof.
  destruct (greedy_lookahead_qvals 1 [Toy [] false] toy_heap) as (bp & bq & H & _).
  - intros st Hst. apply list_elem_of_singleton in Hst as ->. reflexivity.
  - by exists bp, bq.
Defined.



Lemma MctPolicy_call_schedule_witness :
  (∃ h', MctPolicy_call toy_forward 2 (mkMctPolicy 1 default_temp_func pass_tree) 3 pass_heap
         = ([], Ok ([1 / 257; 256 / 257], h'))) ∧
  (∃ h', MctPolicy_call toy_forward 2 (mkMctPolicy 1 default_temp_func pass_tree) 16 pass_heap
         = ([], Ok ([0; 1], h'))).
Proof.
  split.
  - destruct (pass_probs (1 / 8)) as (h' & pi & Hrun & Hroot & HNs).
    { replace (1 / 8) with (1 / INR 8) by (simpl; lra). apply (pass_pi_returns 8); lia. }
    destruct (MctPolicy_call_schedule toy_forward 2
                (mkMctPolicy 1 default_temp_func pass_tree) 3 pass_heap [] pi h' eq_refl Hrun)
      as (rn & Hrn & Hearly & _).
    change (root _) with 0%nat in Hrn. rewrite Hroot in Hrn. injection Hrn as <-.
    cbn [children toy_node] in Hearly. rewrite HNs in Hearly.
    unfold sum_R in Hearly. simpl in Hearly.
    exists h'. unfold MctPolicy_call. cbn [temp_func tree mc_sims].
    change (default_temp_func 3) with (1 / 8).
    rewrite Hrun, Hearly by (lia || lra). repeat f_equal; lra.
  - destruct (pass_probs 0) as (h' & pi & Hrun & Hroot & HNs).
    { by apply compute_pi_zero_returns. }
    destruct (MctPolicy_call_schedule toy_forward 2
                (mkMctPolicy 1 default_temp_func pass_tree) 16 pass_heap [] pi h' eq_refl Hrun)
      as (rn & Hrn & _ & Hlate).
    change (root _) with 0%nat in Hrn. rewrite Hroot in Hrn. injection Hrn as <-.
    cbn [children toy_node] in Hlate. rewrite HNs in Hlate.
    exists h'. unfold MctPolicy_call. cbn [temp_func tree mc_sims].
    change (default_temp_func 16) with 0.
    rewrite Hrun, Hlate by lia. cbn.
    rewrite !(decide_False (P := 1%nat = 2%nat)) by lia.
    rewrite !(decide_True (P := 2%nat = 2%nat)) by done.
    simpl. repeat f_equal; lra.
Defined.

Lemma RandomPolicy_uniform_witness :
  sum_R (RandomPolicy_call (Toy [] false)) = 1.
Proof.
  destruct (RandomPolicy_uniform (Toy [] false)) as (_ & _ & _ & H).
  - vm_compute. lia.
  - exact H.
Defined.

Lemma action_2d_round_trip_witness :
  action_1d_to_2d (action_2d_to_1d (Some (1, 2)%Z) 3) 3 = Returns (Some (1, 2)%Z).
Proof. apply (action_2d_round_trip (Some (1, 2)%Z) 3). split; lia. Defined.

Lemma action_1d_round_trip_witness :
  action_2d_to_1d (Some (1, 2)%Z) 3 = 5%Z.
Proof. apply (action_1d_round_trip 5 3 (Some (1, 2)%Z)). reflexivity. Defined.

Lemma action_1d_to_2d_on_board_witness :
  ∃ row col, action_1d_to_2d 5 3 = Returns (Some (row, col)) ∧
             (0 <= row < 3)%Z ∧ (0 <= col < 3)%Z.
Proof. apply (action_1d_to_2d_on_board 5 3); lia. Defined.
